(** * Tempo estimation of [scripts/madmom_beats.py]

    The script works on NumPy [float64] arrays.  A [float64] is an IEEE 754
    binary64 number, which is what Rocq's primitive [float] is, so the
    embedding computes with the very arithmetic of the script: differences,
    comparisons, the sum of the two middle values and the final division are
    the rounded binary64 operations. *)

From Stdlib Require Import String.
From Stdlib Require Import ZArith List Bool Lia Floats.
From Stdlib Require Import Sorting.Permutation Sorting.Sorted.
Import ListNotations.

#[local] Set Warnings "-inexact-float,-register-all".
#[local] Open Scope float_scope.

(** ** The NumPy operations the script calls *)

Module Numpy.

(** [np.diff(a)]: [out[i] = a[i+1] - a[i]], of length [len(a) - 1]. *)
Fixpoint diff (a : list float) : list float :=
  match a with
  | x :: (y :: _) as t => (y - x) :: diff t
  | _ => []
  end.

(** [a[mask]] with [mask] computed elementwise by [p]. *)
Definition mask_index (p : float -> bool) (a : list float) : list float :=
  filter p a.

(** [np.median] partitions a copy of the array so that the middle
    positions hold what a sorted copy holds there, with any [nan] moved to
    the end.  The copy is modelled by a sort with the binary64 comparison;
    an array holding a [nan] is settled by the check at the end of
    [median] whatever the order of [part]. *)
Fixpoint insert (x : float) (l : list float) : list float :=
  match l with
  | [] => [x]
  | y :: t => if x <=? y then x :: y :: t else y :: insert x t
  end.

Definition sort (a : list float) : list float := fold_right insert [] a.

(** [part[i:j]] *)
Definition slice (i j : nat) (a : list float) : list float :=
  firstn (j - i) (skipn i a).

(** [np.mean]: [add.reduce] of the elements divided by their count. *)
Definition add_reduce (a : list float) : float :=
  match a with
  | [] => 0
  | x :: t => fold_left PrimFloat.add t x
  end.

Definition count (a : list float) : float :=
  PrimFloat.of_uint63 (Uint63.of_Z (Z.of_nat (length a))).

Definition mean (a : list float) : float := add_reduce a / count a.

(** [np.median] of a one-dimensional array: the mean of the middle
    element (odd length) or of the two middle elements (even length), and
    [nan] when the array holds a [nan]. *)
Definition median (a : list float) : float :=
  let part := sort a in
  let sz := length a in
  let index := Nat.div sz 2 in
  let rout :=
    if Nat.odd sz then mean (slice index (index + 1) part)
    else mean (slice (index - 1) (index + 1) part) in
  if existsb PrimFloat.is_nan a then nan else rout.

End Numpy.

(** ** Python results

    A call either returns a value or raises.  [Raises msg] stands for an
    exception of class [Exception] whose [str(e)] is [msg]; that string is
    all the script reads of an exception.  [Escapes status trace] stands
    for an exception outside class [Exception] ([KeyboardInterrupt],
    [SystemExit], [GeneratorExit]): [except Exception] does not catch it,
    and when it reaches the top the interpreter writes the lines [trace]
    to standard error (none for a [SystemExit] with a number) and ends the
    process with [status]. *)

Inductive pyresult (A : Type) : Type :=
| Return (a : A)
| Raises (msg : string)
| Escapes (status : Z) (trace : list string).

Arguments Return {A} a.
Arguments Raises {A} msg.
Arguments Escapes {A} status trace.

Definition bind {A B : Type} (r : pyresult A) (k : A -> pyresult B) : pyresult B :=
  match r with
  | Return a => k a
  | Raises msg => Raises msg
  | Escapes status trace => Escapes status trace
  end.

Notation "x <- r ;; k" := (bind r (fun x => k))
  (at level 61, r at next level, right associativity).

(** ** [calculate_bpm_from_beats] *)

(** The mask [(intervals > 0.2) & (intervals < 2.0)]. *)
Definition in_band (d : float) : bool := (0.2 <? d) && (d <? 2.0).

Definition valid_intervals (beats : list float) : list float :=
  Numpy.mask_index in_band (Numpy.diff beats).

Definition calculate_bpm_from_beats (beats : list float) : float :=
  if (length beats <? 2)%nat then 0.0
  else
    let intervals := Numpy.diff beats in
    let valid_intervals := Numpy.mask_index in_band intervals in
    if (length valid_intervals =? 0)%nat then 0.0
    else
      let median_interval := Numpy.median valid_intervals in
      60.0 / median_interval.

(** The same function with the division made partial.  NumPy's [float64]
    division only warns on a zero divisor; Python's own float division
    raises [ZeroDivisionError].  The checked variant takes the stricter of
    the two, so that reaching a zero divisor shows up as [Raises]. *)
Definition checked_truediv (x y : float) : pyresult float :=
  if y =? 0 then Raises "float division by zero" else Return (x / y).

Definition calculate_bpm_checked (beats : list float) : pyresult float :=
  if (length beats <? 2)%nat then Return 0.0
  else
    let intervals := Numpy.diff beats in
    let valid_intervals := Numpy.mask_index in_band intervals in
    if (length valid_intervals =? 0)%nat then Return 0.0
    else
      let median_interval := Numpy.median valid_intervals in
      checked_truediv 60.0 median_interval.

(** ** [main]

    [argparse] and the two madmom processors are external; [main] is
    parameterised by what they do.

    [parser.parse_args()] runs before the [try].  It returns the namespace
    of the three arguments, or it ends the process itself: on a command
    line it rejects (no [wav_path], an unknown option, a [--min-bpm] that
    is not a number) it writes the usage text and the error to standard
    error and calls [sys.exit(2)]; on [-h] it writes the help text to
    standard output and calls [sys.exit(0)].

    A stream is the sequence of what is written to it: a JSON value
    printed by [main] through [json.dumps], a dictionary being the list of
    its items in insertion order, or text written by [argparse] or by the
    interpreter.  The processors are taken to write nothing themselves and
    printing is taken to succeed.  [sys.exit(0)] raises [SystemExit], which
    [except Exception] does not catch, so the success path ends with exit
    code 0. *)

Inductive json : Type :=
| JNum (x : float)
| JStr (s : string)
| JArr (items : list json)
| JObj (items : list (string * json)).

Record args : Type := { wav_path : string; min_bpm : float; max_bpm : float }.

(** The outcome of [parser.parse_args()]. *)
Inductive parsed : Type :=
| Namespace (a : args)
| UsageError (text : string)
| Help (text : string).

Inductive output : Type :=
| Json (j : json)
| Text (s : string).

Record process : Type :=
  { stdout : list output; stderr : list output; exit_code : Z }.

Section Main.

(** [parser.parse_args()] on the arguments of the command line *)
Variable parse_args : list string -> parsed.
(** [RNNBeatProcessor()(wav_path)] *)
Variable RNNBeatProcessor : string -> pyresult (list float).
(** [DBNBeatTrackingProcessor(fps, min_bpm, max_bpm)(activations)] *)
Variable DBNBeatTrackingProcessor :
  Z -> float -> float -> list float -> pyresult (list float).

(** The body of the [try] block up to the value of [result]. *)
Definition try_block (a : args) : pyresult json :=
  activations <- RNNBeatProcessor (wav_path a) ;;
  beats <- DBNBeatTrackingProcessor 100%Z (min_bpm a) (max_bpm a) activations ;;
  bpm <- calculate_bpm_checked beats ;;
  Return (JObj [("beats", JArr (map JNum beats));
                ("bpm", JNum bpm);
                ("confidence", JNum 0.85)]%string).

Definition main (argv : list string) : process :=
  match parse_args argv with
  | UsageError text =>
      {| stdout := []; stderr := [Text text]; exit_code := 2 |}
  | Help text =>
      {| stdout := [Text text]; stderr := []; exit_code := 0 |}
  | Namespace a =>
      match try_block a with
      | Return result =>
          {| stdout := [Json result]; stderr := []; exit_code := 0 |}
      | Raises e =>
          let error_result :=
            JObj [("error", JStr e);
                  ("beats", JArr []);
                  ("bpm", JNum 0.0);
                  ("confidence", JNum 0.0)]%string in
          {| stdout := []; stderr := [Json error_result]; exit_code := 1 |}
      | Escapes status trace =>
          {| stdout := []; stderr := map Text trace; exit_code := status |}
      end
  end.

End Main.

(** ** Definitions used to state the properties *)

(** The median as the specification words it: the middle value of the
    sorted list, or the average of the two middle values when their number
    is even. *)
Definition spec_median (sorted : list float) : float :=
  let n := length sorted in
  if Nat.even n
  then (nth (n / 2 - 1) sorted nan + nth (n / 2) sorted nan) / 2
  else nth (n / 2) sorted nan.

Definition le_float (x y : float) : Prop := (x <=? y) = true.

(** The two result shapes of the external interface. *)
Definition success_shape (beats : list float) (bpm confidence : float) : process :=
  {| stdout := [Json (JObj [("beats", JArr (map JNum beats));
                            ("bpm", JNum bpm);
                            ("confidence", JNum confidence)]%string)];
     stderr := [];
     exit_code := 0 |}.

Definition failure_shape (message : string) : process :=
  {| stdout := [];
     stderr := [Json (JObj [("error", JStr message);
                            ("beats", JArr []);
                            ("bpm", JNum 0.0);
                            ("confidence", JNum 0.0)]%string)];
     exit_code := 1 |}.

(** The ends of a run that writes no JSON: the two exits of [argparse]
    and an exception that [except Exception] does not catch. *)
Definition usage_exit (text : string) : process :=
  {| stdout := []; stderr := [Text text]; exit_code := 2 |}.

Definition help_exit (text : string) : process :=
  {| stdout := [Text text]; stderr := []; exit_code := 0 |}.

Definition uncaught_exit (status : Z) (trace : list string) : process :=
  {| stdout := []; stderr := map Text trace; exit_code := status |}.

(** The JSON values among what was written to a stream. *)
Fixpoint json_values (written : list output) : list json :=
  match written with
  | [] => []
  | Json j :: rest => j :: json_values rest
  | Text _ :: rest => json_values rest
  end.

(** What the two processors deliver together. *)
Definition detect_beats
    (RNNBeatProcessor : string -> pyresult (list float))
    (DBNBeatTrackingProcessor : Z -> float -> float -> list float -> pyresult (list float))
    (a : args) : pyresult (list float) :=
  activations <- RNNBeatProcessor (wav_path a) ;;
  DBNBeatTrackingProcessor 100%Z (min_bpm a) (max_bpm a) activations.

(** Translation of every timestamp by [c], in binary64. *)
Definition shift_beats (c : float) (beats : list float) : list float :=
  map (fun t => t + c) beats.

(** *** Exact sums

    Every finite binary64 number is a whole number of units of [2^-1074],
    the spacing of the smallest numbers.  The sum [t + c] is exact when it
    is finite and its units are the sum of the units of [t] and [c]: the
    addition did not round. *)

Definition finite_SF (x : spec_float) : bool :=
  match x with
  | S754_zero _ | S754_finite _ _ _ => true
  | _ => false
  end.

Definition units_of (x : spec_float) : Z :=
  match x with
  | S754_finite s m e => (cond_Zopp s (Zpos m) * 2 ^ (e + 1074))%Z
  | _ => 0%Z
  end.

Definition finite (x : float) : bool := finite_SF (Prim2SF x).

Definition units (x : float) : Z := units_of (Prim2SF x).

Definition exact_add (t c : float) : bool :=
  finite t && finite c && finite (t + c) &&
  (units (t + c) =? units t + units c)%Z.

(** *** Binary64 numbers as mantissa and exponent

    [Prim2SF] gives a finite binary64 number as [S754_finite s m e], of
    value [(-1)^s * m * 2^e].  The numbers of the band are normal: their
    mantissa has 53 bits. *)

Definition normal (m : positive) : Prop := (2 ^ 52 <= Zpos m < 2 ^ 53)%Z.

(** The band [(0.2, 2.0)]: binary64 [0.2] is [7205759403792794 * 2^-55]
    and [2.0] is [2^52 * 2^-51]. *)
Definition band (m : positive) (e : Z) : Prop :=
  normal m /\ (-55 <= e <= -52)%Z /\ (e = (-55)%Z -> (7205759403792794 < Zpos m)%Z).

(** The mantissa [binary_round_aux] keeps of [m] after dropping [k] bits. *)
Definition rounded (m : Z) (l : location) (k : nat) : Z :=
  let mrs := Nat.iter k shr_1 (shr_record_of_loc m l) in
  round_nearest_even (shr_m mrs) (loc_of_shr_record mrs).

(** The first step of [binary_round] on [m * 2^e]: the mantissa brought to
    the exponent [fexp] asks for, by a shift to the left or to the right
    ([stage1]), and the same written with a power of two ([aligned]). *)
Definition stage1 (m : positive) (e : Z) : shr_record * Z :=
  let '(mz, ez) := shl_align m e (fexp prec emax (Zpos (digits2_pos m) + e)) in
  shr_fexp prec emax (Zpos mz) ez loc_Exact.

Definition aligned (m : positive) (e : Z) : shr_record * Z :=
  let t := fexp prec emax (Zpos (digits2_pos m) + e) in
  (if (t <=? e)%Z
   then Build_shr_record (Zpos m * 2 ^ (e - t))%Z false false
   else Nat.iter (Z.to_nat (t - e)) shr_1 (Build_shr_record (Zpos m) false false),
   t).

(** A number of the band in units of [2^-55]. *)
Definition key (d : float) : Z :=
  match Prim2SF d with
  | S754_finite false m e => (Zpos m * 2 ^ (e + 55))%Z
  | _ => 0%Z
  end.

(** Reading a key of a JSON object, as the consumer of the output does. *)
Fixpoint assoc (k : string) (items : list (string * json)) : option json :=
  match items with
  | [] => None
  | (k', v) :: rest => if String.eqb k k' then Some v else assoc k rest
  end.

Definition json_get (k : string) (j : json) : option json :=
  match j with
  | JObj items => assoc k items
  | _ => None
  end.

(** [60.0] over a number of the band, in units of [2^-48], is
    [bpm_numerator] over the [key] of the number. *)
Definition bpm_numerator : Z := (8444249301319680 * 2 ^ 56)%Z.

(** * Binary64 arithmetic on the band *)

Module Binary64.

#[local] Open Scope Z_scope.

(** ** Bit length *)

Lemma digits2_pos_bounds p :
  2 ^ (Zpos (digits2_pos p) - 1) <= Zpos p < 2 ^ Zpos (digits2_pos p).
Proof.
  induction p as [p IH|p IH|]; cbn [digits2_pos].
  - rewrite Pos2Z.inj_succ.
    replace (Z.succ (Zpos (digits2_pos p)) - 1) with (Z.succ (Zpos (digits2_pos p) - 1)) by lia.
    rewrite !Z.pow_succ_r by lia.
    destruct IH as [I1 I2]. revert I1 I2.
    generalize (2 ^ (Z.pos (digits2_pos p) - 1)) (2 ^ Z.pos (digits2_pos p)). lia.
  - rewrite Pos2Z.inj_succ.
    replace (Z.succ (Zpos (digits2_pos p)) - 1) with (Z.succ (Zpos (digits2_pos p) - 1)) by lia.
    rewrite !Z.pow_succ_r by lia.
    destruct IH as [I1 I2]. revert I1 I2.
    generalize (2 ^ (Z.pos (digits2_pos p) - 1)) (2 ^ Z.pos (digits2_pos p)). lia.
  - cbn. lia.
Qed.

Lemma Zdigits2_eq m d :
  0 < d -> 2 ^ (d - 1) <= m < 2 ^ d -> Zdigits2 m = d.
Proof.
  intros Hd [Hlo Hhi].
  assert (0 < m) by (pose proof (Z.pow_pos_nonneg 2 (d - 1)); lia).
  destruct m as [|p|p]; try lia. cbn [Zdigits2].
  pose proof (digits2_pos_bounds p) as [B1 B2].
  set (n := Zpos (digits2_pos p)) in *.
  assert (0 < n) by (subst n; lia).
  destruct (Z.lt_trichotomy n d) as [Hlt|[Heq|Hgt]]; trivial.
  - assert (2 ^ n <= 2 ^ (d - 1)) by (apply Z.pow_le_mono_r; lia). lia.
  - assert (2 ^ d <= 2 ^ (n - 1)) by (apply Z.pow_le_mono_r; lia). lia.
Qed.

(** ** Dropping low bits

    [shr_1] halves the mantissa and keeps, in its two flags, whether the
    bit dropped last was set and whether any bit dropped before was. *)

Lemma shr_1_spec m r s :
  0 <= m -> shr_1 (Build_shr_record m r s) = Build_shr_record (Z.div2 m) (Z.odd m) (r || s).
Proof.
  intros Hm. destruct m as [|p|p]; [reflexivity| |lia].
  destruct p; reflexivity.
Qed.

Lemma loc_of_shr_record_of_loc m l :
  loc_of_shr_record (shr_record_of_loc m l) = l.
Proof. destruct l as [|[]]; reflexivity. Qed.

Lemma shr_m_record_of_loc m l : shr_m (shr_record_of_loc m l) = m.
Proof. destruct l as [|[]]; reflexivity. Qed.

Lemma shr_iter_m k : forall mrs, 0 <= shr_m mrs ->
  shr_m (Nat.iter k shr_1 mrs) = shr_m mrs / 2 ^ Z.of_nat k.
Proof.
  induction k as [|k IH]; intros mrs Hm.
  - cbn. now rewrite Z.div_1_r.
  - rewrite Nat.iter_succ. specialize (IH mrs Hm).
    destruct (Nat.iter k shr_1 mrs) as [m' r' s']. cbn [shr_m] in IH. subst m'.
    assert (P: 0 < 2 ^ Z.of_nat k) by (apply Z.pow_pos_nonneg; lia).
    assert (0 <= shr_m mrs / 2 ^ Z.of_nat k) by (apply Z.div_pos; lia).
    rewrite shr_1_spec by assumption. cbn [shr_m].
    rewrite Z.div2_div, Z.div_div by lia.
    rewrite Nat2Z.inj_succ, Z.pow_succ_r by lia. f_equal. lia.
Qed.

Lemma shr_iter_exact k : forall m, 0 <= m -> m mod 2 ^ Z.of_nat k = 0 ->
  Nat.iter k shr_1 (Build_shr_record m false false)
  = Build_shr_record (m / 2 ^ Z.of_nat k) false false.
Proof.
  induction k as [|k IH]; intros m Hm Hmod.
  - cbn. now rewrite Z.div_1_r.
  - rewrite Nat2Z.inj_succ, Z.pow_succ_r in * by lia.
    assert (P: 0 < 2 ^ Z.of_nat k) by (apply Z.pow_pos_nonneg; lia).
    rewrite Nat.iter_succ.
    assert (Hk: m mod 2 ^ Z.of_nat k = 0).
    { apply Z.mod_divide in Hmod; [|lia]. apply Z.mod_divide; [lia|].
      destruct Hmod as [c Hc]. exists (c * 2). lia. }
    rewrite IH by assumption.
    assert (0 <= m / 2 ^ Z.of_nat k) by (apply Z.div_pos; lia).
    rewrite shr_1_spec by assumption. cbn [orb].
    rewrite Z.div2_div, Z.div_div by lia.
    replace (2 ^ Z.of_nat k * 2) with (2 * 2 ^ Z.of_nat k) by lia.
    f_equal.
    apply Z.mod_divide in Hmod; [|lia]. destruct Hmod as [c Hc].
    subst m. replace (c * (2 * 2 ^ Z.of_nat k)) with ((c * 2) * 2 ^ Z.of_nat k) by lia.
    rewrite Z.div_mul by lia. rewrite Z.mul_comm, Z.odd_mul. reflexivity.
Qed.

Lemma round_nearest_even_bounds m l :
  m <= round_nearest_even m l <= m + 1.
Proof. destruct l as [|[]]; cbn [round_nearest_even]; try lia. destruct (Z.even m); lia. Qed.

Lemma iter_pos_nat {A} (f : A -> A) p : forall x,
  iter_pos f p x = Nat.iter (Pos.to_nat p) f x.
Proof.
  induction p as [p IH|p IH|]; intros x; cbn [iter_pos].
  - rewrite !IH, Pos2Nat.inj_xI, <- Nat.iter_succ_r, <- Nat.iter_add.
    f_equal. lia.
  - rewrite !IH, Pos2Nat.inj_xO, <- Nat.iter_add. f_equal. lia.
  - reflexivity.
Qed.

Lemma shr_nat mrs e k :
  shr mrs e (Z.of_nat k) = (Nat.iter k shr_1 mrs, e + Z.of_nat k).
Proof.
  destruct k as [|k].
  - cbn. now rewrite Z.add_0_r.
  - unfold shr. cbn [Z.of_nat]. now rewrite iter_pos_nat, SuccNat2Pos.id_succ.
Qed.

(** ** Rounding to nearest even

    The rounded mantissa is the truncated one or its successor, and the
    truncated one when nothing was dropped. *)

Lemma rounded_bounds m l k :
  0 <= m -> m / 2 ^ Z.of_nat k <= rounded m l k <= m / 2 ^ Z.of_nat k + 1.
Proof.
  intros Hm. unfold rounded.
  pose proof (shr_iter_m k (shr_record_of_loc m l)) as E.
  rewrite shr_m_record_of_loc in E. rewrite <- (E Hm).
  apply round_nearest_even_bounds.
Qed.

Lemma rounded_exact m k :
  0 <= m -> m mod 2 ^ Z.of_nat k = 0 -> rounded m loc_Exact k = m / 2 ^ Z.of_nat k.
Proof.
  intros Hm Hmod. unfold rounded. cbn [shr_record_of_loc].
  now rewrite shr_iter_exact.
Qed.

Lemma rounded_0 m l : rounded m l 0 = round_nearest_even m l.
Proof.
  unfold rounded. cbn [Nat.iter nat_rect].
  now rewrite shr_m_record_of_loc, loc_of_shr_record_of_loc.
Qed.

(** Rounding a mantissa of [53 + k] bits in the normal range: [k] bits are
    dropped, and a carry out of the 53 bits moves to the next exponent. *)

Lemma fexp_normal d e :
  -1021 <= d + e -> fexp prec emax (d + e) - e = d - 53.
Proof. unfold fexp, SpecFloat.emin, prec, emax. lia. Qed.

Lemma binary_round_aux_normal sx m e l k :
  2 ^ (52 + Z.of_nat k) <= m < 2 ^ (53 + Z.of_nat k) ->
  -1074 <= e -> e + Z.of_nat k < 971 ->
  binary_round_aux prec emax sx m e l =
    if rounded m l k <? 2 ^ 53
    then S754_finite sx (Z.to_pos (rounded m l k)) (e + Z.of_nat k)
    else S754_finite sx (Z.to_pos (2 ^ 52)) (e + Z.of_nat k + 1).
Proof.
  intros Hm He1 He2.
  assert (P : 0 < 2 ^ Z.of_nat k) by (apply Z.pow_pos_nonneg; lia).
  assert (Hm0 : 0 <= m).
  { assert (0 < 2 ^ (52 + Z.of_nat k)) by (apply Z.pow_pos_nonneg; lia). lia. }
  assert (Hq : 2 ^ 52 <= m / 2 ^ Z.of_nat k < 2 ^ 53).
  { rewrite !Z.pow_add_r in Hm by lia. split.
    - apply Z.div_le_lower_bound; lia.
    - apply Z.div_lt_upper_bound; lia. }
  pose proof (rounded_bounds m l k Hm0) as Hr.
  assert (Hr' : 2 ^ 52 <= rounded m l k <= 2 ^ 53).
  { revert Hq Hr. generalize (m / 2 ^ Z.of_nat k). intros; lia. }
  clear Hq Hr.
  unfold binary_round_aux, shr_fexp.
  rewrite (Zdigits2_eq m (53 + Z.of_nat k)); [|lia|].
  2:{ replace (53 + Z.of_nat k - 1) with (52 + Z.of_nat k) by lia. exact Hm. }
  rewrite fexp_normal by lia.
  replace (53 + Z.of_nat k - 53) with (Z.of_nat k) by lia.
  rewrite shr_nat. fold (rounded m l k).
  set (r := rounded m l k) in *. clearbody r. clear Hm P Hm0.
  destruct (Z.ltb_spec r (2 ^ 53)) as [Hlt|Hge].
  - rewrite (Zdigits2_eq r 53) by (change (53 - 1) with 52; lia).
    rewrite fexp_normal by lia. change (53 - 53) with 0.
    cbn [shr shr_record_of_loc shr_m].
    destruct r as [|p|p] eqn:Er; try lia.
    cbn [Z.to_pos]. unfold prec, emax.
    destruct (Z.leb_spec (e + Z.of_nat k) (1024 - 53)); [reflexivity|lia].
  - assert (Er : r = 2 ^ 53).
    { assert (2 ^ 53 = 2 ^ 52 + 2 ^ 52) by reflexivity. lia. }
    rewrite Er.
    rewrite (Zdigits2_eq (2 ^ 53) 54) by (cbn; lia).
    rewrite fexp_normal by lia. change (54 - 53) with 1.
    cbn -[Z.add Z.leb Z.sub]. unfold prec, emax.
    destruct (Z.leb_spec (e + Z.of_nat k + 1) (1024 - 53)); [reflexivity|lia].
Qed.

(** ** Division and addition of normal numbers

    Both reduce to one rounding of an integer: the quotient of the scaled
    mantissas, and the sum of the aligned mantissas. *)

Lemma digits_normal m : normal m -> Zpos (digits2_pos m) = 53.
Proof. intros H. apply (Zdigits2_eq (Zpos m) 53); [lia|exact H]. Qed.

Lemma SF64div_normal sx mx ex sy my ey :
  normal mx -> normal my -> -1021 <= ex - ey ->
  SF64div (S754_finite sx mx ex) (S754_finite sy my ey) =
  binary_round_aux prec emax (xorb sx sy)
    (Zpos mx * 2 ^ 53 / Zpos my) (ex - ey - 53)
    (new_location (Zpos my) ((Zpos mx * 2 ^ 53) mod Zpos my)).
Proof.
  intros Hx Hy He.
  unfold SF64div, SFdiv, SFdiv_core_binary. cbn [Zdigits2].
  rewrite (digits_normal mx Hx), (digits_normal my Hy).
  replace (Z.min (fexp prec emax (53 + ex - (53 + ey))) (ex - ey)) with (ex - ey - 53)
    by (unfold fexp, SpecFloat.emin, prec, emax; lia).
  replace (ex - ey - (ex - ey - 53)) with 53 by lia.
  rewrite Z.shiftl_mul_pow2 by lia.
  unfold Z.div, Z.modulo.
  destruct (Z.div_eucl (Zpos mx * 2 ^ 53) (Zpos my)) as [q r]. reflexivity.
Qed.

Lemma pos_iter_xO m d : Zpos (Pos.iter xO m d) = Zpos m * 2 ^ Zpos d.
Proof.
  induction d as [|d IH] using Pos.peano_ind.
  - cbn [Pos.iter]. lia.
  - rewrite Pos.iter_succ, Pos2Z.inj_succ, Z.pow_succ_r by lia.
    change (Zpos (Pos.iter xO m d)~0) with (2 * Zpos (Pos.iter xO m d)).
    rewrite IH. ring.
Qed.

Lemma shl_align_fst mx ex ez :
  ez <= ex -> Zpos (fst (shl_align mx ex ez)) = Zpos mx * 2 ^ (ex - ez).
Proof.
  intros H. unfold shl_align. destruct (ez - ex) as [|p|p] eqn:E; cbn [fst].
  - replace (ex - ez) with 0 by lia. lia.
  - lia.
  - rewrite pos_iter_xO. f_equal. f_equal. lia.
Qed.

Lemma digits_ge_53 m : 2 ^ 52 <= Zpos m -> 53 <= Zpos (digits2_pos m).
Proof.
  intros H. pose proof (digits2_pos_bounds m) as [_ B].
  destruct (Z.le_gt_cases 53 (Zpos (digits2_pos m))) as [|Hlt]; trivial.
  assert (2 ^ Zpos (digits2_pos m) <= 2 ^ 52) by (apply Z.pow_le_mono_r; lia). lia.
Qed.

Lemma SF64add_normal mx ex my ey :
  normal mx -> normal my -> -1074 <= ex -> -1074 <= ey ->
  SF64add (S754_finite false mx ex) (S754_finite false my ey) =
  binary_round_aux prec emax false
    (Zpos mx * 2 ^ (ex - Z.min ex ey) + Zpos my * 2 ^ (ey - Z.min ex ey))
    (Z.min ex ey) loc_Exact.
Proof.
  intros Hx Hy Hex Hey.
  unfold SF64add, SFadd. cbn [cond_Zopp].
  set (ez := Z.min ex ey).
  assert (Hzx : ez <= ex) by (subst ez; lia).
  assert (Hzy : ez <= ey) by (subst ez; lia).
  pose proof (shl_align_fst mx ex ez Hzx) as Ex.
  pose proof (shl_align_fst my ey ez Hzy) as Ey.
  rewrite <- Ex, <- Ey.
  assert (Gx : 2 ^ 52 <= Zpos (fst (shl_align mx ex ez))).
  { rewrite Ex. assert (1 <= 2 ^ (ex - ez)) by (apply (Z.pow_le_mono_r 2 0); lia).
    unfold normal in Hx. nia. }
  clear Ex Ey.
  generalize dependent (fst (shl_align mx ex ez)).
  generalize (fst (shl_align my ey ez)). intros b a Ga.
  cbn [Z.add binary_normalize]. unfold binary_round.
  assert (D : 53 <= Zpos (digits2_pos (a + b))) by (apply digits_ge_53; lia).
  unfold shl_align.
  destruct (fexp prec emax (Zpos (digits2_pos (a + b)) + ez) - ez) as [|p|p] eqn:E;
    try reflexivity.
  exfalso. revert E. unfold fexp, SpecFloat.emin, prec, emax. lia.
Qed.

(** ** Comparison of positive finite numbers *)

Lemma SFltb_finite m1 e1 m2 e2 :
  SFltb (S754_finite false m1 e1) (S754_finite false m2 e2)
  = (e1 <? e2) || ((e1 =? e2) && (Zpos m1 <? Zpos m2)).
Proof.
  unfold SFltb, SFcompare.
  change (Pos.compare_cont Eq m1 m2) with (Zpos m1 ?= Zpos m2).
  destruct (Z.compare_spec e1 e2) as [E|E|E];
    destruct (Z.ltb_spec e1 e2); destruct (Z.eqb_spec e1 e2); try lia; cbn [orb andb];
    trivial.
Qed.

Lemma SFleb_finite m1 e1 m2 e2 :
  SFleb (S754_finite false m1 e1) (S754_finite false m2 e2)
  = (e1 <? e2) || ((e1 =? e2) && (Zpos m1 <=? Zpos m2)).
Proof.
  unfold SFleb, SFcompare.
  change (Pos.compare_cont Eq m1 m2) with (Zpos m1 ?= Zpos m2).
  destruct (Z.compare_spec e1 e2) as [E|E|E];
    destruct (Z.ltb_spec e1 e2); destruct (Z.eqb_spec e1 e2); try lia; cbn [orb andb];
    trivial.
Qed.

(** ** The constants of the script *)

Lemma Prim2SF_02 : Prim2SF 0.2 = S754_finite false 7205759403792794 (-55).
Proof. vm_compute. reflexivity. Qed.
Lemma Prim2SF_2 : Prim2SF 2 = S754_finite false 4503599627370496 (-51).
Proof. vm_compute. reflexivity. Qed.
Lemma Prim2SF_1 : Prim2SF 1 = S754_finite false 4503599627370496 (-52).
Proof. vm_compute. reflexivity. Qed.
Lemma Prim2SF_60 : Prim2SF 60 = S754_finite false 8444249301319680 (-47).
Proof. vm_compute. reflexivity. Qed.
Lemma Prim2SF_30 : Prim2SF 30 = S754_finite false 8444249301319680 (-48).
Proof. vm_compute. reflexivity. Qed.
Lemma Prim2SF_300 : Prim2SF 300 = S754_finite false 5277655813324800 (-44).
Proof. vm_compute. reflexivity. Qed.

(** ** The numbers of the band *)

Lemma valid_normal s m e :
  valid_binary (S754_finite s m e) = true -> -1074 < e -> normal m.
Proof.
  unfold SpecFloat.valid_binary, bounded, canonical_mantissa, fexp, SpecFloat.emin, prec, emax.
  intros H He. apply andb_true_iff in H as [H _]. apply Z.eqb_eq in H.
  assert (D : Zpos (digits2_pos m) = 53) by lia.
  pose proof (digits2_pos_bounds m) as B. rewrite D in B. exact B.
Qed.

Lemma in_band_shape d :
  in_band d = true ->
  exists m e, Prim2SF d = S754_finite false m e /\ band m e.
Proof.
  unfold in_band. rewrite andb_true_iff, !ltb_spec, Prim2SF_02, Prim2SF_2.
  pose proof (Prim2SF_valid d) as V.
  destruct (Prim2SF d) as [s|s| |s m e]; try (intros [? ?]; discriminate).
  - destruct s; intros [? ?]; discriminate.
  - destruct s; [intros [? ?]; discriminate|].
    rewrite !SFltb_finite, !orb_true_iff, !andb_true_iff, !Z.ltb_lt, !Z.eqb_eq.
    intros [H1 H2]. exists m, e. split; [reflexivity|].
    assert (N : -1074 < e -> normal m) by (apply (valid_normal false); exact V).
    unfold band, normal in *. lia.
Qed.

Lemma in_band_intro d m e :
  Prim2SF d = S754_finite false m e -> band m e -> in_band d = true.
Proof.
  intros E (Hn & He & Hlo). unfold in_band.
  rewrite andb_true_iff, !ltb_spec, Prim2SF_02, Prim2SF_2, E.
  rewrite !SFltb_finite, !orb_true_iff, !andb_true_iff, !Z.ltb_lt, !Z.eqb_eq.
  unfold normal in Hn. lia.
Qed.

(** Dividing by a power of two only moves the exponent; this covers the
    divisions by the counts 1.0 and 2.0 in [np.mean]. *)
Lemma SF64div_pow2 sx mx ex ey :
  normal mx -> -1000 <= ex <= 900 -> -60 <= ey <= 0 ->
  SF64div (S754_finite sx mx ex) (S754_finite false 4503599627370496 ey)
  = S754_finite sx mx (ex - ey - 52).
Proof.
  intros Hn Hex Hey.
  rewrite SF64div_normal; [|exact Hn|unfold normal; lia|lia].
  replace (Zpos mx * 2 ^ 53) with ((2 * Zpos mx) * 4503599627370496) by lia.
  rewrite Z.div_mul, Z.mod_mul by lia.
  change (new_location 4503599627370496 0) with loc_Exact.
  unfold normal in Hn.
  rewrite (binary_round_aux_normal _ _ _ _ 1) by (cbn; lia).
  rewrite rounded_exact by (cbn; try apply Z.mod_divide; try (exists (Zpos mx)); lia).
  change (2 ^ Z.of_nat 1) with 2.
  replace (2 * Zpos mx / 2) with (Zpos mx) by (rewrite Z.mul_comm, Z.div_mul; lia).
  destruct (Z.ltb_spec (Zpos mx) (2 ^ 53)) as [_|]; [|lia].
  cbn [Z.to_pos Z.of_nat Pos.of_succ_nat]. rewrite xorb_false_r. f_equal. lia.
Qed.

Lemma new_location_Gt n r :
  0 < r -> n < 2 * r -> new_location n r = loc_Inexact Gt.
Proof.
  intros Hr Hn. unfold new_location, new_location_even, new_location_odd.
  destruct (Z.even n); destruct (Z.eqb_spec r 0); try lia.
  - now rewrite (proj2 (Z.compare_gt_iff (2 * r) n)) by lia.
  - now rewrite (proj2 (Z.compare_gt_iff (2 * r + 1) n)) by lia.
Qed.

(** [60.0 / d] for [d] in the band.  The quotient of the mantissas is
    bounded through [d]; at the two ends of the band the bounds are met to
    the last bit: just above 0.2 the quotient stays three units below the
    mantissa of 300, and just below 2.0 it is the mantissa of 30 with a
    remainder that rounds up. *)
Lemma bpm_in_range d :
  in_band d = true ->
  (30 <? 60 / d)%float = true /\ (60 / d <? 300)%float = true.
Proof.
  intros H. destruct (in_band_shape d H) as (m & e & Ed & Hn & He & Hlo).
  rewrite !ltb_spec, div_spec, Ed, Prim2SF_60, Prim2SF_30, Prim2SF_300.
  clear H Ed.
  rewrite SF64div_normal; [|unfold normal; lia|exact Hn|lia].
  unfold normal in Hn. cbn [xorb].
  set (a := Zpos 8444249301319680 * 2 ^ 53).
  assert (Ea : a = 8444249301319680 * 9007199254740992) by reflexivity.
  clearbody a.
  assert (Hq1 : 8444249301319680 <= a / Zpos m) by (apply Z.div_le_lower_bound; lia).
  assert (Hq2 : a / Zpos m <= 16888498602639360) by (apply Z.div_le_upper_bound; lia).
  assert (Hq3 : e = -55 -> a / Zpos m <= 10555311626649597).
  { intros ->. apply Z.lt_succ_r, Z.div_lt_upper_bound; lia. }
  assert (Hq4 : a / Zpos m = 8444249301319680 ->
                new_location (Zpos m) (a mod Zpos m) = loc_Inexact Gt).
  { intros Eq. apply new_location_Gt; rewrite Z.mod_eq, Eq by lia; lia. }
  revert Hq1 Hq2 Hq3 Hq4.
  generalize (new_location (Zpos m) (a mod Zpos m)). generalize (a / Zpos m).
  clear a Ea. intros q l Hq1 Hq2 Hq3 Hq4.
  destruct (Z.lt_ge_cases q (2 ^ 53)) as [Hk|Hk].
  - rewrite (binary_round_aux_normal _ _ _ _ 0) by (first [lia | cbn; lia]).
    rewrite rounded_0.
    pose proof (round_nearest_even_bounds q l) as Hr.
    assert (Hr' : q = 8444249301319680 -> round_nearest_even q l = q + 1)
      by (intros Eq; rewrite (Hq4 Eq); reflexivity).
    clear Hq4. revert Hr Hr'. generalize (round_nearest_even q l). intros r Hr Hr'.
    destruct (Z.ltb_spec r (2 ^ 53)); rewrite !SFltb_finite;
      rewrite ?Z2Pos.id by lia;
      rewrite !orb_true_iff, !andb_true_iff, !Z.ltb_lt, !Z.eqb_eq; lia.
  - rewrite (binary_round_aux_normal _ _ _ _ 1) by (first [lia | cbn; lia]).
    pose proof (rounded_bounds q l 1 ltac:(lia)) as Hr.
    change (2 ^ Z.of_nat 1) with 2 in Hr. clear Hq4.
    revert Hr. generalize (rounded q l 1). intros r Hr.
    Z.div_mod_to_equations.
    destruct (Z.ltb_spec r (2 ^ 53)); rewrite !SFltb_finite;
      rewrite ?Z2Pos.id by lia;
      rewrite !orb_true_iff, !andb_true_iff, !Z.ltb_lt, !Z.eqb_eq; lia.
Qed.

Lemma rounded_facts m k :
  0 <= m ->
  m / 2 ^ Z.of_nat k <= rounded m loc_Exact k <= m / 2 ^ Z.of_nat k + 1 /\
  (m mod 2 ^ Z.of_nat k = 0 -> rounded m loc_Exact k = m / 2 ^ Z.of_nat k).
Proof.
  intros Hm. split; [now apply rounded_bounds|now apply rounded_exact].
Qed.

(** The sum of two numbers of the band, by cases on the two exponents and
    on the bit length of the aligned sum. *)

Ltac zeval t := let v := eval vm_compute in t in change t with v in *.

Ltac round_sum k :=
  rewrite (binary_round_aux_normal _ _ _ _ k) by (zeval (Z.of_nat k); lia);
  match goal with
  | |- context [rounded ?M loc_Exact k] =>
      let F := fresh "F" in
      pose proof (rounded_facts M k ltac:(lia)) as F;
      zeval (2 ^ Z.of_nat k); zeval (Z.of_nat k);
      revert F; generalize (rounded M loc_Exact k); intros r F
  end;
  match goal with
  | |- context [Z.ltb ?r ?c] =>
      destruct (Z.ltb_spec r c);
      (eexists _, _; split; [reflexivity|]);
      unfold normal; rewrite ?Z2Pos.id by (Z.div_mod_to_equations; lia);
      Z.div_mod_to_equations; lia
  end.

Lemma SF64add_band mx ex my ey :
  band mx ex -> band my ey ->
  exists mr er,
    SF64add (S754_finite false mx ex) (S754_finite false my ey)
    = S754_finite false mr er /\
    normal mr /\ -54 <= er <= -51 /\ (er = -54 -> 7205759403792794 < Zpos mr).
Proof.
  intros (Hx & Hex & Lx) (Hy & Hey & Ly).
  rewrite SF64add_normal by (trivial; lia).
  unfold normal in Hx, Hy.
  assert (Cx : ex = -55 \/ ex = -54 \/ ex = -53 \/ ex = -52) by lia.
  assert (Cy : ey = -55 \/ ey = -54 \/ ey = -53 \/ ey = -52) by lia.
  destruct Cx as [->|[->|[->| ->]]]; destruct Cy as [->|[->|[->| ->]]];
    match goal with
    | |- context [binary_round_aux _ _ _ (_ * 2 ^ ?a + _ * 2 ^ ?b) ?c _] =>
        zeval (2 ^ a); zeval (2 ^ b); zeval c
    end;
    match goal with
    | |- context [binary_round_aux _ _ _ ?M _ _] =>
        destruct (Z.lt_ge_cases M (2 ^ 54));
        [round_sum 1%nat
        |destruct (Z.lt_ge_cases M (2 ^ 55));
         [round_sum 2%nat
         |destruct (Z.lt_ge_cases M (2 ^ 56));
          [round_sum 3%nat|round_sum 4%nat]]]
    end.
Qed.

Lemma div_one x : in_band x = true -> (x / 1)%float = x.
Proof.
  intros H. destruct (in_band_shape x H) as (m & e & E & Hn & He & _).
  apply Prim2SF_inj. rewrite div_spec, Prim2SF_1, E.
  rewrite SF64div_pow2 by (trivial; lia). f_equal. lia.
Qed.

Lemma mean_two_in_band a b :
  in_band a = true -> in_band b = true -> in_band ((a + b) / 2)%float = true.
Proof.
  intros Ha Hb.
  destruct (in_band_shape a Ha) as (ma & ea & Ea & Ba).
  destruct (in_band_shape b Hb) as (mb & eb & Eb & Bb).
  destruct (SF64add_band ma ea mb eb Ba Bb) as (mr & er & Es & Hn & He & Hlo).
  apply (in_band_intro _ mr (er - 1)).
  - rewrite div_spec, add_spec, Prim2SF_2, Ea, Eb, Es.
    rewrite SF64div_pow2 by (trivial; lia). f_equal. lia.
  - clear Ha Hb Ea Eb Es Ba Bb. unfold band, normal in *. lia.
Qed.

(** ** The order of the band

    In units of [2^-55] the numbers of the band are integers, and the
    binary64 comparison is the comparison of these integers. *)

Ltac band_cases ea eb :=
  let Ca := fresh in let Cb := fresh in
  assert (Ca : ea = -55 \/ ea = -54 \/ ea = -53 \/ ea = -52) by lia;
  assert (Cb : eb = -55 \/ eb = -54 \/ eb = -53 \/ eb = -52) by lia;
  destruct Ca as [->|[->|[->| ->]]]; destruct Cb as [->|[->|[->| ->]]].

Lemma key_leb a b :
  in_band a = true -> in_band b = true -> (a <=? b)%float = (key a <=? key b).
Proof.
  intros Ha Hb.
  destruct (in_band_shape a Ha) as (ma & ea & Ea & Na & Ra & _).
  destruct (in_band_shape b Hb) as (mb & eb & Eb & Nb & Rb & _).
  rewrite leb_spec. unfold key. rewrite Ea, Eb, SFleb_finite.
  clear Ha Hb Ea Eb. unfold normal in *.
  apply eq_true_iff_eq.
  rewrite orb_true_iff, andb_true_iff, Z.ltb_lt, Z.eqb_eq, !Z.leb_le.
  band_cases ea eb;
    repeat match goal with
    | |- context [2 ^ ?x] => progress zeval (2 ^ x)
    end; lia.
Qed.

Lemma in_band_not_nan d : in_band d = true -> PrimFloat.is_nan d = false.
Proof.
  intros H. destruct (in_band_shape d H) as (m & e & E & _).
  unfold PrimFloat.is_nan. rewrite eqb_spec, E.
  unfold SFeqb, SFcompare. now rewrite Z.compare_refl, Pos.compare_cont_refl.
Qed.

Lemma key_inj a b :
  in_band a = true -> in_band b = true -> key a = key b -> a = b.
Proof.
  intros Ha Hb.
  destruct (in_band_shape a Ha) as (ma & ea & Ea & Na & Ra & _).
  destruct (in_band_shape b Hb) as (mb & eb & Eb & Nb & Rb & _).
  unfold key. rewrite Ea, Eb. intros K.
  apply Prim2SF_inj. rewrite Ea, Eb.
  clear Ha Hb Ea Eb. unfold normal in *.
  band_cases ea eb;
    match type of K with
    | _ * 2 ^ ?x = _ * 2 ^ ?y => zeval (2 ^ x); zeval (2 ^ y)
    end;
    first [exfalso; lia | f_equal; lia].
Qed.

End Binary64.

(** * Binary64 subtraction in units of [2^-1074]

    The difference of two finite numbers is the rounding of the exact
    difference, so it is a function of the difference of their units. *)

Module Binary64Exact.

Import Binary64.
#[local] Open Scope Z_scope.

(** ** Rounding does not depend on how the number is written

    [binary_round] gives the same result on [m * 2^k] with exponent
    [e - k] as on [m] with exponent [e]. *)

Lemma digits_shift m m' k :
  0 <= k -> Zpos m' = Zpos m * 2 ^ k ->
  Zpos (digits2_pos m') = Zpos (digits2_pos m) + k.
Proof.
  intros Hk E. pose proof (digits2_pos_bounds m) as [B1 B2].
  apply (Zdigits2_eq (Zpos m') (Zpos (digits2_pos m) + k)); [lia|].
  rewrite E.
  replace (Zpos (digits2_pos m) + k - 1) with (Zpos (digits2_pos m) - 1 + k) by lia.
  rewrite !Z.pow_add_r by lia.
  assert (0 < 2 ^ k) by (apply Z.pow_pos_nonneg; lia).
  split; [apply Z.mul_le_mono_nonneg_r|apply Z.mul_lt_mono_pos_r]; lia.
Qed.

Lemma stage1_aligned m e : stage1 m e = aligned m e.
Proof.
  unfold stage1, aligned, shl_align.
  remember (fexp prec emax (Zpos (digits2_pos m) + e)) as t eqn:Ht.
  destruct (t - e) as [|p|p] eqn:E.
  - unfold shr_fexp. cbn [Zdigits2]. rewrite <- Ht, E. cbn [shr shr_record_of_loc].
    assert (Et : t = e) by (clear - E; lia). rewrite Et.
    rewrite Z.leb_refl, Z.sub_diag, Z.mul_1_r. reflexivity.
  - unfold shr_fexp. cbn [Zdigits2]. rewrite <- Ht, E. cbn [shr shr_record_of_loc].
    destruct (Z.leb_spec t e); [clear - E H; lia|].
    rewrite iter_pos_nat. cbn [Z.to_nat]. f_equal. clear - E; lia.
  - pose proof (pos_iter_xO m p) as Em.
    assert (Ed : Zpos (digits2_pos (Pos.iter xO m p)) = Zpos (digits2_pos m) + Zpos p)
      by (apply digits_shift; [lia|exact Em]).
    unfold shr_fexp. cbn [Zdigits2]. rewrite Ed.
    replace (Zpos (digits2_pos m) + Zpos p + t) with (Zpos (digits2_pos m) + e) by (clear - E; lia).
    rewrite <- Ht, Z.sub_diag. cbn [shr shr_record_of_loc].
    destruct (Z.leb_spec t e); [|clear - E H; lia].
    rewrite Em. replace (e - t) with (Zpos p) by (clear - E; lia). reflexivity.
Qed.

Lemma aligned_rescale m m' e k :
  0 <= k -> Zpos m' = Zpos m * 2 ^ k -> aligned m' (e - k) = aligned m e.
Proof.
  intros Hk Em. unfold aligned.
  rewrite (digits_shift m m' k Hk Em).
  replace (Zpos (digits2_pos m) + k + (e - k)) with (Zpos (digits2_pos m) + e) by lia.
  generalize (fexp prec emax (Zpos (digits2_pos m) + e)). intros t.
  f_equal.
  assert (P : 0 < 2 ^ k) by (apply Z.pow_pos_nonneg; lia).
  destruct (Z.leb_spec t (e - k)) as [H1|H1].
  - destruct (Z.leb_spec t e); [|lia]. f_equal.
    rewrite Em, <- Z.mul_assoc, <- Z.pow_add_r by lia. do 2 f_equal. lia.
  - destruct (Z.leb_spec t e) as [H2|H2].
    + (* exact right shift by t - (e - k) <= k *)
      set (n := Z.to_nat (t - (e - k))).
      assert (Hn : Z.of_nat n = t - (e - k)) by (subst n; lia).
      rewrite shr_iter_exact.
      * f_equal. rewrite Hn, Em.
        replace k with ((e - t) + (t - (e - k))) at 1 by lia.
        rewrite Z.pow_add_r, Z.mul_assoc by lia.
        rewrite Z.div_mul; [reflexivity|].
        assert (0 < 2 ^ (t - (e - k))) by (apply Z.pow_pos_nonneg; lia). lia.
      * lia.
      * rewrite Hn, Em.
        replace k with ((e - t) + (t - (e - k))) at 1 by lia.
        rewrite Z.pow_add_r, Z.mul_assoc by lia.
        apply Z.mod_mul.
        assert (0 < 2 ^ (t - (e - k))) by (apply Z.pow_pos_nonneg; lia). lia.
    + replace (Z.to_nat (t - (e - k))) with (Z.to_nat (t - e) + Z.to_nat k)%nat by lia.
      rewrite Nat.iter_add. f_equal.
      rewrite shr_iter_exact.
      * f_equal. rewrite Z2Nat.id, Em, Z.div_mul by lia. reflexivity.
      * lia.
      * rewrite Z2Nat.id, Em by lia. apply Z.mod_mul. lia.
Qed.

Lemma binary_round_stage1 s m e :
  binary_round prec emax s m e =
  let '(mrs', e') := stage1 m e in
  let '(mrs'', e'') :=
    shr_fexp prec emax (round_nearest_even (shr_m mrs') (loc_of_shr_record mrs')) e' loc_Exact in
  match shr_m mrs'' with
  | Z0 => S754_zero s
  | Zpos m => if e'' <=? emax - prec then S754_finite s m e'' else S754_infinity s
  | _ => S754_nan
  end.
Proof.
  unfold binary_round, stage1, binary_round_aux.
  destruct (shl_align m e _) as [mz ez]. reflexivity.
Qed.

Lemma binary_round_rescale s m m' e k :
  0 <= k -> Zpos m' = Zpos m * 2 ^ k ->
  binary_round prec emax s m' (e - k) = binary_round prec emax s m e.
Proof.
  intros Hk Em. rewrite !binary_round_stage1, !stage1_aligned.
  now rewrite (aligned_rescale m m' e k Hk Em).
Qed.

Lemma binary_round_bounded s m e :
  bounded prec emax m e = true -> binary_round prec emax s m e = S754_finite s m e.
Proof.
  intros B. rewrite binary_round_stage1, stage1_aligned. unfold aligned.
  unfold bounded, canonical_mantissa in B. apply andb_true_iff in B as [B1 B2].
  apply Z.eqb_eq in B1. rewrite B1, Z.leb_refl, Z.sub_diag, Z.mul_1_r.
  cbn [shr_m loc_of_shr_record round_nearest_even].
  unfold shr_fexp. cbn [Zdigits2]. rewrite B1, Z.sub_diag.
  cbn [shr shr_record_of_loc shr_m]. now rewrite B2.
Qed.

(** ** Subtraction *)

Lemma binary_normalize_cond s m e sz :
  binary_normalize prec emax (cond_Zopp s (Zpos m)) e sz = binary_round prec emax s m e.
Proof. destruct s; reflexivity. Qed.

Lemma binary_normalize_rescale M e k sz :
  0 <= k ->
  binary_normalize prec emax (M * 2 ^ k) (e - k) sz = binary_normalize prec emax M e sz.
Proof.
  intros Hk. assert (P : 0 < 2 ^ k) by (apply Z.pow_pos_nonneg; lia).
  destruct M as [|m|m].
  - reflexivity.
  - destruct (Zpos m * 2 ^ k) as [|m'|m'] eqn:E; try lia.
    cbn [binary_normalize]. now apply binary_round_rescale.
  - assert (E : exists m', Zneg m * 2 ^ k = Zneg m' /\ Zpos m' = Zpos m * 2 ^ k).
    { destruct (Zpos m * 2 ^ k) as [|m'|m'] eqn:E; try lia.
      exists m'. split; [|reflexivity].
      change (Zneg m) with (- Zpos m). rewrite Z.mul_opp_l, E. reflexivity. }
    destruct E as (m' & E1 & E2). rewrite E1.
    cbn [binary_normalize]. now apply binary_round_rescale.
Qed.

Lemma bounded_exponent m e : bounded prec emax m e = true -> -1074 <= e.
Proof.
  unfold bounded, canonical_mantissa, fexp, SpecFloat.emin, prec, emax.
  intros B. apply andb_true_iff in B as [B _]. apply Z.eqb_eq in B. lia.
Qed.

Lemma units_finite s m e :
  bounded prec emax m e = true ->
  binary_normalize prec emax (units_of (S754_finite s m e)) (-1074) false
  = S754_finite s m e.
Proof.
  intros B. cbn [units_of]. pose proof (bounded_exponent m e B) as He.
  replace (-1074) with (e - (e + 1074)) by lia.
  rewrite binary_normalize_rescale by lia.
  rewrite binary_normalize_cond. now apply binary_round_bounded.
Qed.

Lemma units_nonzero s m e :
  bounded prec emax m e = true -> units_of (S754_finite s m e) <> 0.
Proof.
  intros B. pose proof (bounded_exponent m e B) as He. clear B. cbn [units_of].
  assert (P : 0 < 2 ^ (e + 1074)) by (apply Z.pow_pos_nonneg; lia).
  destruct s; cbn [cond_Zopp]; nia.
Qed.

(** The difference of two finite numbers is the rounding of the exact
    difference of their units; a zero difference is a zero of either
    sign. *)
Lemma SF64sub_units X Y :
  valid_binary X = true -> valid_binary Y = true ->
  finite_SF X = true -> finite_SF Y = true ->
  (units_of X - units_of Y <> 0 ->
   SF64sub X Y = binary_normalize prec emax (units_of X - units_of Y) (-1074) false) /\
  (units_of X - units_of Y = 0 -> exists s, SF64sub X Y = S754_zero s).
Proof.
  intros VX VY FX FY.
  destruct X as [sx|sx| |sx mx ex]; try discriminate;
    destruct Y as [sy|sy| |sy my ey]; try discriminate;
    cbn [SpecFloat.valid_binary] in VX, VY.
  - split; [cbn [units_of]; lia|]. intros _.
    destruct sx; destruct sy; eexists; reflexivity.
  - pose proof (units_nonzero sy my ey VY) as N.
    split; [intros _|cbn [units_of] in *; lia].
    replace (units_of (S754_zero sx) - units_of (S754_finite sy my ey))
      with (units_of (S754_finite (negb sy) my ey))
      by (cbn [units_of]; destruct sy; cbn [negb cond_Zopp]; lia).
    rewrite units_finite by exact VY. reflexivity.
  - pose proof (units_nonzero sx mx ex VX) as N.
    split; [intros _|cbn [units_of] in *; lia].
    replace (units_of (S754_finite sx mx ex) - units_of (S754_zero sy))
      with (units_of (S754_finite sx mx ex)) by (cbn [units_of]; lia).
    rewrite units_finite by exact VX. reflexivity.
  - pose proof (bounded_exponent mx ex VX) as Hx.
    pose proof (bounded_exponent my ey VY) as Hy. clear VX VY.
    unfold SF64sub, SFsub. set (ez := Z.min ex ey).
    rewrite !shl_align_fst by (subst ez; lia).
    set (M := cond_Zopp sx (Zpos mx * 2 ^ (ex - ez))
              - cond_Zopp sy (Zpos my * 2 ^ (ey - ez))).
    assert (Hz : -1074 <= ez) by (subst ez; lia).
    assert (U : units_of (S754_finite sx mx ex) - units_of (S754_finite sy my ey)
                = M * 2 ^ (ez + 1074)).
    { cbn [units_of]. subst M.
      assert (H1 : ez <= ex) by (subst ez; lia).
      assert (H2 : ez <= ey) by (subst ez; lia). clearbody ez.
      replace (ex + 1074) with ((ex - ez) + (ez + 1074)) by lia.
      replace (ey + 1074) with ((ey - ez) + (ez + 1074)) by lia.
      rewrite (Z.pow_add_r 2 (ex - ez)), (Z.pow_add_r 2 (ey - ez)) by lia.
      generalize (2 ^ (ex - ez)) (2 ^ (ey - ez)) (2 ^ (ez + 1074)). intros a b c.
      destruct sx; destruct sy; cbn [cond_Zopp]; ring. }
    rewrite U.
    assert (P : 0 < 2 ^ (ez + 1074)) by (apply Z.pow_pos_nonneg; lia).
    split.
    + intros _. replace (-1074) with (ez - (ez + 1074)) by lia.
      now rewrite binary_normalize_rescale by lia.
    + intros Z0. assert (M0 : M = 0) by (clearbody M; nia).
      rewrite M0. exists false. reflexivity.
Qed.

Lemma in_band_zero d s : Prim2SF d = S754_zero s -> in_band d = false.
Proof.
  intros E. destruct (in_band d) eqn:B; trivial.
  destruct (in_band_shape d B) as (m & e & E' & _). congruence.
Qed.

(** Two differences of finite numbers with the same exact value are the
    same number, or two zeros, which the mask drops. *)
Lemma sub_same_units x1 y1 x2 y2 :
  finite x1 = true -> finite y1 = true -> finite x2 = true -> finite y2 = true ->
  units x1 - units y1 = units x2 - units y2 ->
  (x1 - y1 = x2 - y2)%float \/
  in_band (x1 - y1) = false /\ in_band (x2 - y2) = false.
Proof.
  unfold finite, units. intros F1 G1 F2 G2 U.
  destruct (SF64sub_units (Prim2SF x1) (Prim2SF y1)
              (Prim2SF_valid x1) (Prim2SF_valid y1) F1 G1) as [N1 Z1].
  destruct (SF64sub_units (Prim2SF x2) (Prim2SF y2)
              (Prim2SF_valid x2) (Prim2SF_valid y2) F2 G2) as [N2 Z2].
  rewrite <- sub_spec in N1, Z1, N2, Z2. rewrite <- U in N2, Z2.
  destruct (Z.eq_dec (units_of (Prim2SF x1) - units_of (Prim2SF y1)) 0) as [E|E].
  - right. destruct (Z1 E) as [s1 E1]. destruct (Z2 E) as [s2 E2].
    split; eapply in_band_zero; eassumption.
  - left. apply Prim2SF_inj. now rewrite (N1 E), (N2 E).
Qed.

End Binary64Exact.

(** * The sorted copy inside [np.median] *)

Section SortedCopy.

Import Numpy.

Lemma insert_perm x l : Permutation (insert x l) (x :: l).
Proof.
  induction l as [|y t IH]; cbn [insert].
  - apply Permutation_refl.
  - destruct (x <=? y).
    + apply Permutation_refl.
    + eapply perm_trans; [apply perm_skip, IH|apply perm_swap].
Qed.

Lemma sort_perm l : Permutation (sort l) l.
Proof.
  induction l as [|x t IH]; cbn [sort fold_right].
  - apply perm_nil.
  - eapply perm_trans; [apply insert_perm|apply perm_skip, IH].
Qed.

Lemma sort_length l : length (sort l) = length l.
Proof. apply Permutation_length, sort_perm. Qed.

Lemma sort_in_band l :
  Forall (fun d => in_band d = true) l ->
  Forall (fun d => in_band d = true) (sort l).
Proof.
  intros H. eapply Permutation_Forall; [|exact H].
  apply Permutation_sym, sort_perm.
Qed.

(** On the band the comparison is a total order. *)
Lemma le_float_total x y :
  in_band x = true -> in_band y = true -> (x <=? y) = false -> le_float y x.
Proof.
  intros Hx Hy H. unfold le_float.
  rewrite Binary64.key_leb in * by assumption.
  apply Z.leb_gt in H. apply Z.leb_le. lia.
Qed.

Lemma insert_sorted x l :
  in_band x = true -> Forall (fun d => in_band d = true) l ->
  Sorted le_float l -> Sorted le_float (insert x l).
Proof.
  intros Hx Hl Hs. induction Hs as [|y t Ht IH Hy]; cbn [insert].
  - repeat constructor.
  - inversion Hl as [|? ? By Bt]; subst.
    destruct (x <=? y) eqn:E.
    + constructor; [constructor; assumption|constructor; exact E].
    + constructor; [apply IH; assumption|].
      destruct t as [|z t']; cbn [insert].
      * constructor. now apply le_float_total.
      * destruct (x <=? z); constructor.
        -- now apply le_float_total.
        -- now inversion Hy.
Qed.

Lemma sort_sorted l :
  Forall (fun d => in_band d = true) l -> Sorted le_float (sort l).
Proof.
  induction 1 as [|x t Hx Ht IH]; cbn [sort fold_right].
  - constructor.
  - apply insert_sorted; trivial. now apply sort_in_band.
Qed.

(** Sorted lists of integers with the same elements are equal. *)
Lemma sorted_perm_eq_Z (l1 : list Z) : forall l2,
  StronglySorted Z.le l1 -> StronglySorted Z.le l2 ->
  Permutation l1 l2 -> l1 = l2.
Proof.
  induction l1 as [|a t1 IH]; intros l2 S1 S2 P.
  - now apply Permutation_nil in P.
  - destruct l2 as [|b t2].
    + apply Permutation_sym, Permutation_nil in P. discriminate.
    + apply StronglySorted_inv in S1 as [S1 A1].
      apply StronglySorted_inv in S2 as [S2 A2].
      assert (Hab : (a <= b)%Z).
      { assert (I : In b (a :: t1))
          by (eapply Permutation_in; [apply Permutation_sym, P|now left]).
        destruct I as [->|I]; [lia|].
        rewrite Forall_forall in A1. now apply A1. }
      assert (Hba : (b <= a)%Z).
      { assert (I : In a (b :: t2)) by (eapply Permutation_in; [exact P|now left]).
        destruct I as [->|I]; [lia|].
        rewrite Forall_forall in A2. now apply A2. }
      assert (a = b) by lia. subst b.
      f_equal. apply IH; trivial. now apply Permutation_cons_inv in P.
Qed.

Lemma sorted_keys s :
  Forall (fun d => in_band d = true) s -> Sorted le_float s ->
  Sorted Z.le (map key s).
Proof.
  intros B S. induction S as [|x t St IH Hx]; cbn [map].
  - constructor.
  - inversion B as [|? ? Bx Bt]; subst.
    constructor; [now apply IH|].
    destruct Hx as [|y t' Hxy]; cbn [map]; constructor.
    inversion Bt; subst.
    unfold le_float in Hxy. rewrite Binary64.key_leb in Hxy by assumption.
    now apply Z.leb_le.
Qed.

Lemma keys_inj s1 : forall s2,
  Forall (fun d => in_band d = true) s1 ->
  Forall (fun d => in_band d = true) s2 ->
  map key s1 = map key s2 -> s1 = s2.
Proof.
  induction s1 as [|x t1 IH]; intros [|y t2] B1 B2 E; try discriminate; trivial.
  inversion B1; inversion B2; subst. injection E as Exy Et.
  f_equal; [now apply Binary64.key_inj|now apply IH].
Qed.

(** The sorted copy is the only sorted arrangement of the retained
    intervals. *)
Lemma sorted_unique v s :
  Forall (fun d => in_band d = true) v ->
  Sorted le_float s -> Permutation s v -> s = sort v.
Proof.
  intros Bv Ss Ps.
  assert (Bs : Forall (fun d => in_band d = true) s)
    by (eapply Permutation_Forall; [apply Permutation_sym, Ps|exact Bv]).
  apply keys_inj; trivial; [now apply sort_in_band|].
  apply sorted_perm_eq_Z.
  - apply Sorted_StronglySorted; [exact Z.le_trans|now apply sorted_keys].
  - apply Sorted_StronglySorted; [exact Z.le_trans|].
    apply sorted_keys; [now apply sort_in_band|now apply sort_sorted].
  - apply Permutation_map.
    eapply perm_trans; [exact Ps|apply Permutation_sym, sort_perm].
Qed.

End SortedCopy.

(** * The median of the retained intervals *)

Section Median.

Import Numpy.

Lemma skipn_nth (d : float) h : forall l,
  (h < length l)%nat -> skipn h l = nth h l d :: skipn (S h) l.
Proof.
  induction h as [|h IH]; intros [|x t] H; cbn [length] in H; try lia.
  - reflexivity.
  - cbn [skipn nth]. apply IH. lia.
Qed.

Lemma slice_one (d : float) h l :
  (h < length l)%nat -> slice h (h + 1) l = [nth h l d].
Proof.
  intros H. unfold slice. replace (h + 1 - h)%nat with 1%nat by lia.
  now rewrite (skipn_nth d h l H).
Qed.

Lemma slice_two (d : float) h l :
  (1 <= h)%nat -> (h < length l)%nat ->
  slice (h - 1) (h + 1) l = [nth (h - 1) l d; nth h l d].
Proof.
  intros H1 H. unfold slice. replace (h + 1 - (h - 1))%nat with 2%nat by lia.
  rewrite (skipn_nth d (h - 1) l) by lia.
  replace (S (h - 1)) with h by lia.
  now rewrite (skipn_nth d h l H).
Qed.

Lemma mean_one x : in_band x = true -> mean [x] = x.
Proof. intros H. now apply Binary64.div_one. Qed.

Lemma mean_two a b : mean [a; b] = (a + b) / 2.
Proof. reflexivity. Qed.

Lemma odd_even n : Nat.odd n = negb (Nat.even n).
Proof. now rewrite <- Nat.negb_even. Qed.

Lemma half_lt n : (0 < n)%nat -> (n / 2 < n)%nat.
Proof. intros H. apply Nat.div_lt; lia. Qed.

Lemma even_half_pos n : (0 < n)%nat -> Nat.even n = true -> (1 <= n / 2)%nat.
Proof.
  intros H E. destruct n as [|[|n]]; try lia; [discriminate|].
  change (S (S n)) with (1 * 2 + n)%nat.
  rewrite Nat.add_comm, Nat.div_add by lia. lia.
Qed.

Lemma no_nan_in_band l :
  Forall (fun d => in_band d = true) l -> existsb PrimFloat.is_nan l = false.
Proof.
  induction 1 as [|x t Hx Ht IH]; cbn [existsb]; trivial.
  now rewrite (Binary64.in_band_not_nan x Hx), IH.
Qed.

Variable v : list float.
Hypothesis v_band : Forall (fun d => in_band d = true) v.
Hypothesis v_nonempty : v <> [].

Lemma v_length : (0 < length v)%nat.
Proof. destruct v; [congruence|cbn; lia]. Qed.

Lemma nth_sort_in_band i :
  (i < length v)%nat -> in_band (nth i (sort v) nan) = true.
Proof.
  intros H. pose proof (sort_in_band v v_band) as B.
  rewrite Forall_forall in B. apply B, nth_In. now rewrite sort_length.
Qed.

(** [np.median] is the median of the specification, computed on the
    sorted copy. *)
Lemma median_spec_sort : median v = spec_median (sort v).
Proof.
  pose proof v_length as L. pose proof (half_lt _ L) as Hh.
  unfold median, spec_median.
  rewrite (no_nan_in_band v v_band), sort_length, odd_even.
  destruct (Nat.even (length v)) eqn:E; cbn [negb].
  - pose proof (even_half_pos _ L E).
    rewrite (slice_two nan) by (rewrite ?sort_length; lia).
    apply mean_two.
  - rewrite (slice_one nan) by (rewrite sort_length; lia).
    apply mean_one, nth_sort_in_band, Hh.
Qed.

Lemma median_spec s :
  Sorted le_float s -> Permutation s v -> median v = spec_median s.
Proof.
  intros S P. rewrite (sorted_unique v s v_band S P). apply median_spec_sort.
Qed.

Lemma median_in_band : in_band (median v) = true.
Proof.
  pose proof v_length as L. pose proof (half_lt _ L) as Hh.
  rewrite median_spec_sort. unfold spec_median. rewrite sort_length.
  destruct (Nat.even (length v)) eqn:E.
  - pose proof (even_half_pos _ L E).
    apply Binary64.mean_two_in_band; apply nth_sort_in_band; lia.
  - now apply nth_sort_in_band.
Qed.

End Median.

(** * The estimator *)

Lemma valid_intervals_in_band beats :
  Forall (fun d => in_band d = true) (valid_intervals beats).
Proof.
  unfold valid_intervals, Numpy.mask_index. apply Forall_forall.
  intros d H. now apply filter_In in H.
Qed.

Lemma length_zero_iff (l : list float) : (length l =? 0)%nat = true <-> l = [].
Proof. destruct l; cbn; split; congruence. Qed.

(** The function in terms of its two guards. *)
Lemma calculate_bpm_cases beats :
  ((length beats < 2)%nat \/ valid_intervals beats = []) /\
    calculate_bpm_from_beats beats = 0.0
  \/
  (2 <= length beats)%nat /\ valid_intervals beats <> [] /\
    calculate_bpm_from_beats beats = 60.0 / Numpy.median (valid_intervals beats).
Proof.
  unfold calculate_bpm_from_beats. fold (valid_intervals beats).
  destruct (Nat.ltb_spec (length beats) 2) as [H|H]; [left; auto|].
  destruct (length (valid_intervals beats) =? 0)%nat eqn:E.
  - apply length_zero_iff in E. left; auto.
  - right. repeat split; trivial. intros N. apply length_zero_iff in N. congruence.
Qed.

Lemma in_band_nonzero d : in_band d = true -> (d =? 0) = false.
Proof.
  intros H. destruct (Binary64.in_band_shape d H) as (m & e & E & _).
  rewrite eqb_spec, E. reflexivity.
Qed.

Lemma calculate_bpm_checked_returns beats :
  calculate_bpm_checked beats = Return (calculate_bpm_from_beats beats).
Proof.
  unfold calculate_bpm_checked, calculate_bpm_from_beats.
  fold (valid_intervals beats).
  destruct (length beats <? 2)%nat; trivial.
  destruct (length (valid_intervals beats) =? 0)%nat eqn:E; trivial.
  unfold checked_truediv. rewrite in_band_nonzero; trivial.
  apply median_in_band; [apply valid_intervals_in_band|].
  intros N. apply length_zero_iff in N. congruence.
Qed.

Lemma length_diff beats : length (Numpy.diff beats) = (length beats - 1)%nat.
Proof.
  induction beats as [|x [|y t] IH]; trivial.
  change (Numpy.diff (x :: y :: t)) with ((y - x) :: Numpy.diff (y :: t)).
  cbn [length] in *. lia.
Qed.

(** The estimate is a function of the computed differences alone. *)
Lemma calculate_bpm_diff b1 b2 :
  Numpy.diff b1 = Numpy.diff b2 ->
  calculate_bpm_from_beats b1 = calculate_bpm_from_beats b2.
Proof.
  intros E. unfold calculate_bpm_from_beats. rewrite <- E.
  pose proof (length_diff b1) as L1. pose proof (length_diff b2) as L2.
  rewrite <- E in L2.
  destruct (Nat.ltb_spec (length b1) 2) as [H1|H1];
    destruct (Nat.ltb_spec (length b2) 2) as [H2|H2]; trivial.
  - destruct (Numpy.diff b1); [reflexivity|cbn [length] in *; lia].
  - destruct (Numpy.diff b1); [reflexivity|cbn [length] in *; lia].
Qed.

(** Fewer than two timestamps leave no interval, so the two guards are
    one: the estimate is a function of the retained intervals. *)
Lemma calculate_bpm_retained beats :
  calculate_bpm_from_beats beats =
  if (length (valid_intervals beats) =? 0)%nat then 0.0
  else 60.0 / Numpy.median (valid_intervals beats).
Proof.
  unfold calculate_bpm_from_beats. fold (valid_intervals beats).
  destruct beats as [|x [|y t]]; reflexivity.
Qed.

Lemma valid_intervals_two a b :
  valid_intervals [a; b] = if in_band (b - a) then [b - a] else [].
Proof. reflexivity. Qed.

Lemma diff_snoc t : forall beats,
  beats <> [] ->
  Numpy.diff (beats ++ [t]) = Numpy.diff beats ++ [t - last beats 0].
Proof.
  induction beats as [|x [|y r] IH]; intros N; [congruence|reflexivity|].
  change (Numpy.diff ((x :: y :: r) ++ [t]))
    with ((y - x) :: Numpy.diff ((y :: r) ++ [t])).
  rewrite IH by discriminate. reflexivity.
Qed.

(** A translation with exact sums keeps the retained intervals: each
    difference keeps its exact value, and a zero difference, whose sign
    may change, is dropped either way. *)
Lemma valid_intervals_shift c : forall beats,
  Forall (fun t => exact_add t c = true) beats ->
  valid_intervals (shift_beats c beats) = valid_intervals beats.
Proof.
  induction beats as [|x [|y t] IH]; intros H; trivial.
  assert (IH' := IH (Forall_inv_tail H)).
  apply Forall_inv in H as Hx. apply Forall_inv_tail, Forall_inv in H as Hy.
  unfold exact_add in Hx, Hy.
  rewrite !andb_true_iff, Z.eqb_eq in Hx, Hy.
  destruct Hx as [[[Fx Fc] Fxc] Ux]. destruct Hy as [[[Fy _] Fyc] Uy].
  unfold valid_intervals, Numpy.mask_index, shift_beats in *.
  change (map (fun t => t + c) (x :: y :: t))
    with ((x + c) :: map (fun t => t + c) (y :: t)).
  change (map (fun t => t + c) (y :: t))
    with ((y + c) :: map (fun t => t + c) t) in *.
  change (Numpy.diff ((x + c) :: (y + c) :: map (fun t => t + c) t))
    with (((y + c) - (x + c))
            :: Numpy.diff ((y + c) :: map (fun t => t + c) t)).
  change (Numpy.diff (x :: y :: t)) with ((y - x) :: Numpy.diff (y :: t)).
  cbn [filter]. rewrite IH'.
  destruct (Binary64Exact.sub_same_units (y + c) (x + c) y x Fyc Fxc Fy Fx) as [E|[E1 E2]].
  - clear - Ux Uy. lia.
  - now rewrite E.
  - now rewrite E1, E2.
Qed.

(** * The streams of [main] *)

Lemma json_values_text (trace : list string) : json_values (map Text trace) = [].
Proof. induction trace as [|l r IH]; trivial. Qed.

(** * The properties of the specification *)

(** Steady beats half a second apart: 120 beats per minute. *)
Example bpm_steady_beats :
  calculate_bpm_from_beats [0.0; 0.5; 1.0; 1.5; 2.0; 2.5] = 120.0.
Proof. vm_compute. reflexivity. Qed.

(** An array holding a [nan] has median [nan]; the mask never lets one
    through, since both comparisons are false on [nan]. *)
Example median_nan :
  Numpy.median [0.5; nan; 0.25] = nan /\ in_band nan = false /\
  Numpy.median [0.75; 0.25; 0.5; 1.0] = 0.625.
Proof. repeat split; vm_compute; reflexivity. Qed.

(** C1: with at least two timestamps and a non-empty set of retained
    intervals, the estimate is [60.0] divided by the median of the retained
    intervals, the median being the middle value of their sorted list, or
    the average of the two middle values when their number is even. *)
Theorem bpm_is_60_over_median beats s :
  (2 <= length beats)%nat ->
  valid_intervals beats <> [] ->
  Sorted le_float s ->
  Permutation s (valid_intervals beats) ->
  calculate_bpm_from_beats beats = 60.0 / spec_median s.
Proof.
  intros Hlen Hne Hs Hp.
  destruct (calculate_bpm_cases beats) as [[[H|H] _]|(_ & _ & E)]; [lia|congruence|].
  rewrite E. f_equal.
  apply median_spec; trivial. apply valid_intervals_in_band.
Qed.

Lemma bpm_is_60_over_median_witness :
  calculate_bpm_from_beats [0.0; 0.5; 1.0; 3.5; 4.0; 4.75]
  = 60.0 / spec_median [0.5; 0.5; 0.5; 0.75].
Proof.
  apply bpm_is_60_over_median.
  - cbn. lia.
  - vm_compute. discriminate.
  - repeat constructor.
  - vm_compute. apply Permutation_refl.
Defined.

(** C2: fewer than two timestamps give exactly [0.0]. *)
Theorem bpm_too_few_beats beats :
  (length beats < 2)%nat -> calculate_bpm_from_beats beats = 0.0.
Proof.
  intros H. unfold calculate_bpm_from_beats.
  now rewrite (proj2 (Nat.ltb_lt _ _) H).
Qed.

Lemma bpm_too_few_beats_witness :
  calculate_bpm_from_beats [] = 0.0 /\ calculate_bpm_from_beats [1.5] = 0.0.
Proof.
  split; apply bpm_too_few_beats; cbn; lia.
Defined.

(** C3: when every inter-beat interval lies outside the open interval
    (0.2, 2.0), the estimate is exactly [0.0]. *)
Theorem bpm_no_interval_in_band beats :
  (2 <= length beats)%nat ->
  Forall (fun d => ~ ((0.2 <? d) = true /\ (d <? 2.0) = true)) (Numpy.diff beats) ->
  calculate_bpm_from_beats beats = 0.0.
Proof.
  intros _ H.
  assert (E : valid_intervals beats = []).
  { unfold valid_intervals, Numpy.mask_index.
    induction H as [|d t Hd Ht IH]; cbn [filter]; trivial.
    unfold in_band at 1.
    destruct (0.2 <? d); destruct (d <? 2.0); cbn [andb]; trivial.
    exfalso. apply Hd. split; reflexivity. }
  destruct (calculate_bpm_cases beats) as [[_ R]|(_ & N & _)]; congruence.
Qed.

Lemma bpm_no_interval_in_band_witness :
  calculate_bpm_from_beats [0.0; 0.1; 3.0; 3.0; 2.5] = 0.0.
Proof.
  apply bpm_no_interval_in_band.
  - cbn. lia.
  - repeat constructor; vm_compute; intros [A B]; discriminate.
Defined.

(** C4: the band filter is strict at both ends.  An interval of exactly
    0.2 s or exactly 2.0 s fails the mask, is never among the values
    [np.median] is applied to, and the estimate is what it is without that
    interval; an interval of 0.2001 s or 1.9999 s passes the mask and is
    among the values of the median.  For [0.0, 0.2, 0.4, 0.9] the intervals
    are 0.2, 0.2 and 0.5: the median is taken of 0.5 alone (120 BPM), not
    of the three.  For [0.0, 2.0, 4.0, 4.5, 5.5] it is taken of 0.5 and 1.0
    (80 BPM), not of all four. *)
Theorem band_filter_is_strict :
  (in_band 0.2 = false /\ in_band 2.0 = false /\
   in_band 0.2001 = true /\ in_band 1.9999 = true) /\
  (forall a b, b - a = 0.2 \/ b - a = 2.0 ->
     valid_intervals [a; b] = [] /\ calculate_bpm_from_beats [a; b] = 0.0) /\
  (forall a b, b - a = 0.2001 \/ b - a = 1.9999 ->
     valid_intervals [a; b] = [b - a] /\
     Numpy.median (valid_intervals [a; b]) = b - a /\
     calculate_bpm_from_beats [a; b] = 60.0 / (b - a)) /\
  (forall beats,
     calculate_bpm_from_beats beats
     = (if (length (valid_intervals beats) =? 0)%nat then 0.0
        else 60.0 / Numpy.median (valid_intervals beats)) /\
     ~ In 0.2 (valid_intervals beats) /\ ~ In 2.0 (valid_intervals beats) /\
     (In 0.2001 (Numpy.diff beats) -> In 0.2001 (valid_intervals beats)) /\
     (In 1.9999 (Numpy.diff beats) -> In 1.9999 (valid_intervals beats))) /\
  (forall beats t, t - last beats 0 = 0.2 \/ t - last beats 0 = 2.0 ->
     calculate_bpm_from_beats (beats ++ [t]) = calculate_bpm_from_beats beats) /\
  (forall t beats, hd 0 beats - t = 0.2 \/ hd 0 beats - t = 2.0 ->
     calculate_bpm_from_beats (t :: beats) = calculate_bpm_from_beats beats) /\
  (calculate_bpm_from_beats [0.0; 0.2] = 0.0 /\
   calculate_bpm_from_beats [0.0; 2.0] = 0.0 /\
   calculate_bpm_from_beats [0.0; 0.2001] = 60.0 / 0.2001 /\
   calculate_bpm_from_beats [0.0; 1.9999] = 60.0 / 1.9999) /\
  (Numpy.diff [0.0; 0.2; 0.4; 0.9] = [0.2; 0.2; 0.5] /\
   valid_intervals [0.0; 0.2; 0.4; 0.9] = [0.5] /\
   calculate_bpm_from_beats [0.0; 0.2; 0.4; 0.9] = 60.0 / Numpy.median [0.5] /\
   calculate_bpm_from_beats [0.0; 0.2; 0.4; 0.9] = 120.0 /\
   60.0 / Numpy.median [0.2; 0.2; 0.5] = 300.0) /\
  (Numpy.diff [0.0; 2.0; 4.0; 4.5; 5.5] = [2.0; 2.0; 0.5; 1.0] /\
   valid_intervals [0.0; 2.0; 4.0; 4.5; 5.5] = [0.5; 1.0] /\
   calculate_bpm_from_beats [0.0; 2.0; 4.0; 4.5; 5.5] = 60.0 / Numpy.median [0.5; 1.0] /\
   calculate_bpm_from_beats [0.0; 2.0; 4.0; 4.5; 5.5] = 80.0 /\
   60.0 / Numpy.median [2.0; 2.0; 0.5; 1.0] = 40.0).
Proof.
  assert (B02 : in_band 0.2 = false) by (vm_compute; reflexivity).
  assert (B2 : in_band 2.0 = false) by (vm_compute; reflexivity).
  split; [repeat split; vm_compute; reflexivity|].
  split.
  { intros a b H. rewrite calculate_bpm_retained, valid_intervals_two.
    destruct H as [E|E]; rewrite E; split; vm_compute; reflexivity. }
  split.
  { intros a b H. rewrite calculate_bpm_retained, valid_intervals_two.
    destruct H as [E|E]; rewrite E; repeat split; vm_compute; reflexivity. }
  split.
  { intros beats. split; [apply calculate_bpm_retained|].
    pose proof (valid_intervals_in_band beats) as B. rewrite Forall_forall in B.
    split; [intros I; apply B in I; congruence|].
    split; [intros I; apply B in I; congruence|].
    unfold valid_intervals, Numpy.mask_index.
    split; intros I; apply filter_In; (split; [exact I|vm_compute; reflexivity]). }
  split.
  { intros beats t H.
    assert (D : in_band (t - last beats 0) = false)
      by (destruct H as [E|E]; rewrite E; assumption).
    destruct beats as [|x r]; [reflexivity|].
    rewrite !calculate_bpm_retained. unfold valid_intervals, Numpy.mask_index.
    rewrite diff_snoc by discriminate.
    rewrite filter_app. cbn [filter]. rewrite D, app_nil_r. reflexivity. }
  split.
  { intros t beats H.
    assert (D : in_band (hd 0 beats - t) = false)
      by (destruct H as [E|E]; rewrite E; assumption).
    destruct beats as [|x r]; [reflexivity|].
    rewrite !calculate_bpm_retained. unfold valid_intervals, Numpy.mask_index.
    change (Numpy.diff (t :: x :: r)) with ((x - t) :: Numpy.diff (x :: r)).
    cbn [filter hd] in *. rewrite D. reflexivity. }
  repeat split; vm_compute; reflexivity.
Qed.


(** C6, as the specification states it, fails: in binary64 the difference
    [1.4 - 0.9] is not [0.5], so the third interval and with it the median
    lie just below 0.5 and the estimate is not 120.0. *)
Lemma bpm_three_intervals_counterexample :
  Numpy.diff [0.0; 0.4; 0.9; 1.4] <> [0.4; 0.5; 0.5] /\
  Numpy.median (valid_intervals [0.0; 0.4; 0.9; 1.4]) <> 0.5 /\
  calculate_bpm_from_beats [0.0; 0.4; 0.9; 1.4] <> 120.0.
Proof.
  repeat split; intros H.
  - apply (f_equal (fun l => nth 2 l 0 =? 0.5)) in H.
    vm_compute in H. discriminate.
  - apply (f_equal (fun x => x =? 0.5)) in H. vm_compute in H. discriminate.
  - apply (f_equal (fun x => x =? 120.0)) in H. vm_compute in H. discriminate.
Qed.

(** C6, amended: for the timestamps [0.0, 0.4, 0.9, 1.4] the binary64
    intervals are 0.4, 0.5 and 0.49999999999999989; all three are retained,
    their median is 0.49999999999999989 and the estimate is
    120.00000000000003, which lies within 1e-13 of 120. *)
Theorem bpm_three_intervals :
  Numpy.diff [0.0; 0.4; 0.9; 1.4] = [0.4; 0.5; 0.49999999999999989] /\
  valid_intervals [0.0; 0.4; 0.9; 1.4] = [0.4; 0.5; 0.49999999999999989] /\
  Numpy.median (valid_intervals [0.0; 0.4; 0.9; 1.4]) = 0.49999999999999989 /\
  calculate_bpm_from_beats [0.0; 0.4; 0.9; 1.4] = 120.00000000000003 /\
  (120.0 <? calculate_bpm_from_beats [0.0; 0.4; 0.9; 1.4]) = true /\
  (calculate_bpm_from_beats [0.0; 0.4; 0.9; 1.4] <? 120.0000000000001) = true.
Proof. repeat split; vm_compute; reflexivity. Qed.

(** C7: the estimator never raises, whatever the timestamps (unsorted or
    repeated ones included): every input takes one of the two paths to 0.0
    or the median path, and on the median path the divisor is strictly
    greater than 0.2, hence not zero. *)
Theorem bpm_never_raises beats :
  calculate_bpm_checked beats = Return (calculate_bpm_from_beats beats) /\
  ((((length beats < 2)%nat \/ valid_intervals beats = []) /\
      calculate_bpm_from_beats beats = 0.0)
   \/
   ((2 <= length beats)%nat /\ valid_intervals beats <> [] /\
      calculate_bpm_from_beats beats = 60.0 / Numpy.median (valid_intervals beats) /\
      (0.2 <? Numpy.median (valid_intervals beats)) = true /\
      (Numpy.median (valid_intervals beats) =? 0) = false)).
Proof.
  split; [apply calculate_bpm_checked_returns|].
  destruct (calculate_bpm_cases beats) as [H|(L & N & E)]; [left; exact H|right].
  pose proof (median_in_band _ (valid_intervals_in_band beats) N) as B.
  repeat split; trivial.
  - unfold in_band in B. now apply andb_true_iff in B.
  - now apply in_band_nonzero.
Qed.

(** C8, as the specification states it, fails.  The error message is
    [str(e)], which is empty for an exception raised without arguments; and
    with an empty message allowed there are still runs of neither shape: a
    command line that [argparse] rejects ends with the usage text on
    standard error and exit code 2, before the [try] is entered. *)
Lemma main_error_message_counterexample :
  ~ (forall parse_args RNNBeatProcessor DBNBeatTrackingProcessor argv,
       (exists beats bpm confidence,
          main parse_args RNNBeatProcessor DBNBeatTrackingProcessor argv
          = success_shape beats bpm confidence)
       \/
       (exists message,
          message <> EmptyString /\
          main parse_args RNNBeatProcessor DBNBeatTrackingProcessor argv
          = failure_shape message))
  /\
  ~ (forall parse_args RNNBeatProcessor DBNBeatTrackingProcessor argv,
       (exists beats bpm confidence,
          main parse_args RNNBeatProcessor DBNBeatTrackingProcessor argv
          = success_shape beats bpm confidence)
       \/
       (exists message,
          main parse_args RNNBeatProcessor DBNBeatTrackingProcessor argv
          = failure_shape message)).
Proof.
  split; intros H.
  - specialize (H (fun _ =>
                     Namespace {| wav_path := "track.wav";
                                  min_bpm := 55.0; max_bpm := 215.0 |})
                  (fun _ => Raises EmptyString) (fun _ _ _ act => Return act)
                  ["track.wav"%string]).
    destruct H as [(beats & bpm & c & E)|(message & N & E)].
    + discriminate E.
    + apply N. injection E as E. now symmetry.
  - specialize (H (fun _ => UsageError "usage: madmom_beats.py [-h] wav_path")
                  (fun _ => Return []) (fun _ _ _ act => Return act) []).
    destruct H as [(beats & bpm & c & E)|(message & E)]; discriminate E.
Qed.

(** C8, amended.  When the command line parses and the processors return
    or raise an exception of class [Exception], the outcomes are two
    disjoint shapes: on success the object with the beats, the estimate
    and the confidence 0.85 goes to standard output and the exit code is
    0; on an exception of the processors the object with the error message
    [str(e)] (empty when the exception carries no text), no beats, bpm 0.0
    and confidence 0.0 goes to standard error and the exit code is 1.  The
    estimator adds no failure of its own.  The other runs write no JSON
    and have neither shape: a rejected command line ends with the usage
    text on standard error and exit code 2, a request for help with the
    help text on standard output and exit code 0, and an exception outside
    class [Exception] is not caught and ends the process with its own
    status. *)
Theorem main_two_outcomes parse_args RNNBeatProcessor DBNBeatTrackingProcessor argv :
  match parse_args argv with
  | Namespace a =>
      match detect_beats RNNBeatProcessor DBNBeatTrackingProcessor a with
      | Return beats =>
          main parse_args RNNBeatProcessor DBNBeatTrackingProcessor argv
          = success_shape beats (calculate_bpm_from_beats beats) 0.85
      | Raises e =>
          main parse_args RNNBeatProcessor DBNBeatTrackingProcessor argv
          = failure_shape e
      | Escapes status trace =>
          main parse_args RNNBeatProcessor DBNBeatTrackingProcessor argv
          = uncaught_exit status trace
      end
  | UsageError text =>
      main parse_args RNNBeatProcessor DBNBeatTrackingProcessor argv
      = usage_exit text
  | Help text =>
      main parse_args RNNBeatProcessor DBNBeatTrackingProcessor argv
      = help_exit text
  end
  /\ (forall beats bpm confidence message,
        success_shape beats bpm confidence <> failure_shape message /\
        exit_code (success_shape beats bpm confidence) = 0%Z /\
        stderr (success_shape beats bpm confidence) = [] /\
        exit_code (failure_shape message) = 1%Z /\
        stdout (failure_shape message) = [])
  /\ (forall text status trace beats bpm confidence message,
        usage_exit text <> success_shape beats bpm confidence /\
        usage_exit text <> failure_shape message /\
        help_exit text <> success_shape beats bpm confidence /\
        help_exit text <> failure_shape message /\
        uncaught_exit status trace <> success_shape beats bpm confidence /\
        uncaught_exit status trace <> failure_shape message /\
        json_values (stdout (usage_exit text) ++ stderr (usage_exit text)) = [] /\
        json_values (stdout (help_exit text) ++ stderr (help_exit text)) = [] /\
        json_values (stdout (uncaught_exit status trace)
                       ++ stderr (uncaught_exit status trace)) = []).
Proof.
  split; [|split].
  - unfold main, try_block, detect_beats.
    destruct (parse_args argv) as [a|text|text]; trivial.
    destruct (RNNBeatProcessor (wav_path a)) as [act|e|status trace];
      cbn [bind]; trivial.
    destruct (DBNBeatTrackingProcessor 100%Z (min_bpm a) (max_bpm a) act)
      as [beats|e|status trace]; cbn [bind]; trivial.
    now rewrite calculate_bpm_checked_returns.
  - intros. repeat split; trivial. discriminate.
  - intros. repeat split; try discriminate; trivial.
    + unfold uncaught_exit, failure_shape. intros E. injection E as E _.
      destruct trace as [|l [|l' r]]; discriminate E.
    + cbn [uncaught_exit stdout stderr app]. apply json_values_text.
Qed.

(** C9: the estimate is exactly 0.0 or lies strictly between 30.0 and
    300.0: every retained interval is strictly inside (0.2, 2.0), so is
    their median, the average of two middle values included, and 60.0
    divided by such a value is strictly inside (30.0, 300.0). *)
Theorem bpm_zero_or_in_range beats :
  Forall (fun d => (0.2 <? d) = true /\ (d <? 2.0) = true) (valid_intervals beats) /\
  (valid_intervals beats <> [] ->
     (0.2 <? Numpy.median (valid_intervals beats)) = true /\
     (Numpy.median (valid_intervals beats) <? 2.0) = true) /\
  (calculate_bpm_from_beats beats = 0.0 \/
   (30.0 <? calculate_bpm_from_beats beats) = true /\
   (calculate_bpm_from_beats beats <? 300.0) = true).
Proof.
  pose proof (valid_intervals_in_band beats) as B.
  repeat split.
  - eapply Forall_impl; [|exact B]. intros d H. now apply andb_true_iff.
  - pose proof (median_in_band _ B H) as M. unfold in_band in M.
    now apply andb_true_iff in M.
  - pose proof (median_in_band _ B H) as M. unfold in_band in M.
    now apply andb_true_iff in M.
  - destruct (calculate_bpm_cases beats) as [[_ R]|(_ & N & E)]; [now left|right].
    rewrite E. apply Binary64.bpm_in_range. now apply median_in_band.
Qed.

(** C10, as stated, fails: adding 0.2 to the timestamps [0.0, 0.5] changes
    the estimate, because [0.7 - 0.2] is not [0.5] in binary64. *)
Lemma bpm_translation_counterexample :
  calculate_bpm_from_beats (shift_beats 0.2 [0.0; 0.5])
  <> calculate_bpm_from_beats [0.0; 0.5].
Proof.
  intros H. apply (f_equal (fun x => x =? 120.0)) in H.
  vm_compute in H. discriminate.
Qed.

(** C10, amended: adding [c] to every timestamp yields exactly the same
    estimate whenever every sum [t + c] is exact, that is, computed without
    rounding: the differences of consecutive timestamps then keep their
    exact values, so the computed differences are the same, up to the sign
    of a zero difference, which the band filter drops either way. *)
Theorem bpm_translation beats c :
  Forall (fun t => exact_add t c = true) beats ->
  valid_intervals (shift_beats c beats) = valid_intervals beats /\
  calculate_bpm_from_beats (shift_beats c beats) = calculate_bpm_from_beats beats.
Proof.
  intros H. pose proof (valid_intervals_shift c beats H) as E.
  split; [exact E|]. now rewrite !calculate_bpm_retained, E.
Qed.

Lemma bpm_translation_witness :
  valid_intervals (shift_beats 0.25 [0.5; 1.0; 1.75; 2.5; 3.25])
  = valid_intervals [0.5; 1.0; 1.75; 2.5; 3.25] /\
  calculate_bpm_from_beats (shift_beats 0.25 [0.5; 1.0; 1.75; 2.5; 3.25])
  = calculate_bpm_from_beats [0.5; 1.0; 1.75; 2.5; 3.25].
Proof.
  apply bpm_translation. repeat constructor.
Defined.

(** * Further binary64 facts: order, subtraction and division on the band *)

Module Binary64Order.

Import Binary64.
#[local] Open Scope Z_scope.

(** ** The average of two numbers of the band lies between them *)

Ltac round_between k :=
  rewrite (binary_round_aux_normal _ _ _ _ k) by (zeval (Z.of_nat k); lia);
  match goal with
  | |- context [rounded ?M loc_Exact k] =>
      let F := fresh "F" in
      pose proof (rounded_facts M k ltac:(lia)) as F;
      zeval (2 ^ Z.of_nat k); zeval (Z.of_nat k);
      revert F; generalize (rounded M loc_Exact k); intros r F
  end;
  match goal with
  | |- context [Z.ltb ?r ?c] =>
      destruct (Z.ltb_spec r c);
      (eexists _, _; split; [reflexivity|]);
      unfold normal; rewrite ?Z2Pos.id by (Z.div_mod_to_equations; lia);
      repeat match goal with
      | |- context [2 ^ ?x] => progress zeval (2 ^ x)
      end;
      Z.div_mod_to_equations; lia
  end.

Lemma SF64add_between ma ea mb eb :
  band ma ea -> band mb eb ->
  Zpos ma * 2 ^ (ea + 55) <= Zpos mb * 2 ^ (eb + 55) ->
  exists mr er,
    SF64add (S754_finite false ma ea) (S754_finite false mb eb)
    = S754_finite false mr er /\
    normal mr /\ -54 <= er <= -51 /\
    2 * (Zpos ma * 2 ^ (ea + 55)) <= Zpos mr * 2 ^ (er + 55)
      <= 2 * (Zpos mb * 2 ^ (eb + 55)).
Proof.
  intros (Hx & Hex & Lx) (Hy & Hey & Ly) Hab.
  rewrite SF64add_normal by (trivial; lia).
  unfold normal in Hx, Hy.
  assert (Cx : ea = -55 \/ ea = -54 \/ ea = -53 \/ ea = -52) by lia.
  assert (Cy : eb = -55 \/ eb = -54 \/ eb = -53 \/ eb = -52) by lia.
  destruct Cx as [->|[->|[->| ->]]]; destruct Cy as [->|[->|[->| ->]]];
    repeat match goal with
    | H : context [2 ^ ?x] |- _ => progress zeval (2 ^ x)
    end;
    match goal with
    | |- context [binary_round_aux _ _ _ (_ * 2 ^ ?a + _ * 2 ^ ?b) ?c _] =>
        zeval (2 ^ a); zeval (2 ^ b); zeval c
    end;
    match goal with
    | |- context [binary_round_aux _ _ _ ?M _ _] =>
        destruct (Z.lt_ge_cases M (2 ^ 54));
        [round_between 1%nat
        |destruct (Z.lt_ge_cases M (2 ^ 55));
         [round_between 2%nat
         |destruct (Z.lt_ge_cases M (2 ^ 56));
          [round_between 3%nat|round_between 4%nat]]]
    end.
Qed.

Lemma mean_two_between a b :
  in_band a = true -> in_band b = true -> (a <=? b)%float = true ->
  (a <=? (a + b) / 2)%float = true /\ ((a + b) / 2 <=? b)%float = true.
Proof.
  intros Ha Hb Hab.
  pose proof (mean_two_in_band a b Ha Hb) as Hm.
  rewrite !key_leb in * by assumption.
  apply Z.leb_le in Hab. rewrite !Z.leb_le.
  destruct (in_band_shape a Ha) as (ma & ea & Ea & Ba).
  destruct (in_band_shape b Hb) as (mb & eb & Eb & Bb).
  assert (Ka : key a = Zpos ma * 2 ^ (ea + 55)) by (unfold key; now rewrite Ea).
  assert (Kb : key b = Zpos mb * 2 ^ (eb + 55)) by (unfold key; now rewrite Eb).
  rewrite Ka, Kb in *.
  destruct (SF64add_between ma ea mb eb Ba Bb Hab) as (mr & er & Es & Hn & He & Hv).
  assert (Em : Prim2SF ((a + b) / 2) = S754_finite false mr (er - 1)).
  { rewrite div_spec, add_spec, Prim2SF_2, Ea, Eb, Es.
    rewrite SF64div_pow2 by (trivial; lia). f_equal. lia. }
  assert (Km : key ((a + b) / 2) = Zpos mr * 2 ^ (er - 1 + 55))
    by (unfold key; now rewrite Em).
  rewrite Km.
  replace (er + 55) with (Z.succ (er - 1 + 55)) in Hv by lia.
  rewrite Z.pow_succ_r in Hv by lia.
  clear - Hv. revert Hv.
  generalize (Zpos ma * 2 ^ (ea + 55)) (Zpos mb * 2 ^ (eb + 55)) (2 ^ (er - 1 + 55)).
  intros x y p Hv. nia.
Qed.

(** [d + d] is exact, so the average of two equal values is the value. *)
Lemma mean_two_same d : in_band d = true -> ((d + d) / 2)%float = d.
Proof.
  intros H.
  assert (L : (d <=? d)%float = true) by (rewrite key_leb by assumption; apply Z.leb_refl).
  destruct (mean_two_between d d H H L) as [L1 L2].
  pose proof (mean_two_in_band d d H H) as Hm.
  rewrite key_leb in L1, L2 by assumption.
  apply Z.leb_le in L1, L2. apply key_inj; trivial. lia.
Qed.

(** ** A difference of non-increasing numbers is never positive *)

Lemma bounded_digits m e :
  bounded prec emax m e = true ->
  -1074 <= e /\ Zpos m < 2 ^ 53 /\ (-1074 < e -> 2 ^ 52 <= Zpos m).
Proof.
  unfold bounded, canonical_mantissa, fexp, SpecFloat.emin, prec, emax.
  intros H. apply andb_true_iff in H as [H _]. apply Z.eqb_eq in H.
  pose proof (digits2_pos_bounds m) as [B1 B2].
  set (d := Zpos (digits2_pos m)) in *.
  assert (Hd : d <= 53) by lia.
  repeat split; try lia.
  - assert (2 ^ d <= 2 ^ 53) by (apply Z.pow_le_mono_r; lia). lia.
  - intros He. assert (d = 53) by lia.
    replace (d - 1) with 52 in B1 by lia. exact B1.
Qed.

Lemma exponent_order m1 e1 m2 e2 :
  bounded prec emax m1 e1 = true -> bounded prec emax m2 e2 = true ->
  e1 < e2 -> Zpos m1 < Zpos m2 * 2 ^ (e2 - e1).
Proof.
  intros H1 H2 He.
  destruct (bounded_digits m1 e1 H1) as (L1 & U1 & _).
  destruct (bounded_digits m2 e2 H2) as (_ & _ & N2).
  specialize (N2 ltac:(lia)).
  assert (P : 2 ^ 1 <= 2 ^ (e2 - e1)) by (apply Z.pow_le_mono_r; lia).
  change (2 ^ 1) with 2 in P.
  change (2 ^ 53) with (2 ^ 52 * 2) in U1.
  revert P. generalize (2 ^ (e2 - e1)). intros p P. nia.
Qed.

Lemma binary_normalize_nonpos D e m' e' :
  D <= 0 -> binary_normalize prec emax D e false <> S754_finite false m' e'.
Proof.
  intros HD. destruct D as [|p|p]; [discriminate|lia|].
  cbn [binary_normalize]. unfold binary_round, binary_round_aux.
  destruct (shl_align p e _) as [mz ez].
  destruct (shr_fexp prec emax (Zpos mz) ez loc_Exact) as [mrs1 e1].
  destruct (shr_fexp prec emax _ e1 loc_Exact) as [mrs2 e2].
  destruct (shr_m mrs2); try discriminate.
  destruct (e2 <=? emax - prec); discriminate.
Qed.

Lemma SF64sub_not_positive Y X m e :
  valid_binary Y = true -> valid_binary X = true -> SFleb Y X = true ->
  SF64sub Y X <> S754_finite false m e.
Proof.
  intros VY VX L.
  destruct Y as [sy|sy| |sy my ey]; destruct X as [sx|sx| |sx mx ex];
    try discriminate;
    try (destruct sy; destruct sx; discriminate).
  unfold SF64sub, SFsub. apply binary_normalize_nonpos.
  cbn [SpecFloat.valid_binary] in VY, VX.
  set (ez := Z.min ey ex).
  rewrite !shl_align_fst by (subst ez; lia).
  revert L. unfold SFleb, SFcompare.
  change (Pos.compare_cont Eq my mx) with (Zpos my ?= Zpos mx).
  destruct sy, sx; cbn [cond_Zopp]; try discriminate.
  + destruct (Z.compare_spec ey ex) as [E|E|E]; try discriminate.
    * subst ex. replace (ey - ez) with 0 by (subst ez; lia).
      destruct (Z.compare_spec (Zpos my) (Zpos mx)); cbn [CompOpp];
        try discriminate; intros _; clear VY VX; clearbody ez; lia.
    * intros _. pose proof (exponent_order mx ex my ey VX VY E).
      replace (ex - ez) with 0 by (subst ez; lia).
      replace (ey - ez) with (ey - ex) by (subst ez; lia).
      clear VY VX; clearbody ez; lia.
  + intros _.
    assert (0 < 2 ^ (ey - ez)) by (apply Z.pow_pos_nonneg; subst ez; lia).
    assert (0 < 2 ^ (ex - ez)) by (apply Z.pow_pos_nonneg; subst ez; lia).
    clear VY VX; clearbody ez; nia.
  + destruct (Z.compare_spec ey ex) as [E|E|E]; try discriminate.
    * subst ex. replace (ey - ez) with 0 by (subst ez; lia).
      destruct (Z.compare_spec (Zpos my) (Zpos mx));
        try discriminate; intros _; clear VY VX; clearbody ez; lia.
    * intros _. pose proof (exponent_order my ey mx ex VY VX E).
      replace (ey - ez) with 0 by (subst ez; lia).
      replace (ex - ez) with (ex - ey) by (subst ez; lia).
      clear VY VX; clearbody ez; lia.
Qed.

Lemma sub_not_in_band x y : (y <=? x)%float = true -> in_band (y - x) = false.
Proof.
  intros L. destruct (in_band (y - x)) eqn:B; trivial. exfalso.
  destruct (in_band_shape _ B) as (m & e & E & _).
  rewrite sub_spec in E. rewrite leb_spec in L.
  exact (SF64sub_not_positive _ _ m e (Prim2SF_valid y) (Prim2SF_valid x) L E).
Qed.

(** ** [60.0 / d] is nearest to the exact quotient, hence antitone in [d] *)

Lemma new_location_cases n r :
  0 < n -> 0 <= r < n ->
  (new_location n r = loc_Exact /\ r = 0) \/
  (new_location n r = loc_Inexact Lt /\ 0 < r /\ 2 * r < n) \/
  (new_location n r = loc_Inexact Eq /\ 2 * r = n) \/
  (new_location n r = loc_Inexact Gt /\ n < 2 * r).
Proof.
  intros Hn Hr. unfold new_location, new_location_even, new_location_odd.
  destruct (Z.even n) eqn:E; destruct (Z.eqb_spec r 0) as [R0|R0]; auto.
  - destruct (Z.compare_spec (2 * r) n); [right; right; left|right; left|right; right; right];
      split; trivial; lia.
  - assert (O : Z.odd n = true) by (now rewrite <- Z.negb_even, E).
    apply Z.odd_spec in O as [c Hc].
    destruct (Z.compare_spec (2 * r + 1) n);
      [right; left|right; left|right; right; right]; split; trivial; lia.
Qed.

Lemma rounded_nearest q r m (k : nat) :
  (k <= 1)%nat -> 0 < m -> 0 <= r < m -> 0 <= q ->
  - (2 ^ Z.of_nat k * m)
  <= 2 * (rounded q (new_location m r) k * 2 ^ Z.of_nat k * m - (q * m + r))
  <= 2 ^ Z.of_nat k * m.
Proof.
  intros Hk Hm Hr Hq.
  destruct (new_location_cases m r Hm Hr) as [[-> L]|[[-> L]|[[-> L]|[-> L]]]];
    destruct k as [|[|k]]; try lia;
    unfold rounded; cbn [Nat.iter nat_rect shr_record_of_loc];
    rewrite ?shr_1_spec by assumption;
    cbn [shr_m loc_of_shr_record orb];
    change (2 ^ Z.of_nat 0) with 1; change (2 ^ Z.of_nat 1) with 2;
    try (pose proof (Z.div2_odd q) as D; revert D; generalize (Z.div2 q); intros h D;
         destruct (Z.odd q); cbn [Z.b2z] in D; subst q);
    cbn [loc_of_shr_record round_nearest_even];
    try match goal with |- context [Z.even ?x] => destruct (Z.even x) end;
    nia.
Qed.

(** [60.0 / d] in units of [2^-48]: a multiple [R * 2^g] of the grid of its
    binade, nearest to [bpm_numerator / key d]. *)
Lemma div60_value d :
  in_band d = true ->
  exists mr er R g,
    Prim2SF (60 / d) = S754_finite false mr er /\
    normal mr /\ -48 <= er <= -44 /\
    Zpos mr * 2 ^ (er + 48) = R * 2 ^ g /\
    0 <= g <= 4 /\ 2 ^ 52 <= R <= 2 ^ 53 /\
    - (2 ^ g * key d) <= 2 * (R * 2 ^ g * key d - bpm_numerator) <= 2 ^ g * key d /\
    2 ^ (52 + g) * key d <= bpm_numerator < 2 ^ (53 + g) * key d.
Proof.
  intros H. destruct (in_band_shape d H) as (m & e & Ed & Hn & He & Hlo).
  assert (K : key d = Zpos m * 2 ^ (e + 55)) by (unfold key; now rewrite Ed).
  rewrite K, div_spec, Ed, Prim2SF_60. clear H Ed K.
  rewrite SF64div_normal; [|unfold normal; lia|exact Hn|lia].
  unfold normal in Hn. cbn [xorb]. unfold bpm_numerator.
  set (C := Zpos 8444249301319680 * 2 ^ 53).
  assert (EC : C = 8444249301319680 * 9007199254740992) by reflexivity.
  clearbody C.
  pose proof (Z.div_mod C (Zpos m) ltac:(lia)) as DM.
  pose proof (Z.mod_pos_bound C (Zpos m) ltac:(lia)) as RB.
  assert (Hq1 : 8444249301319680 <= C / Zpos m) by (apply Z.div_le_lower_bound; lia).
  assert (Hq2 : C / Zpos m <= 16888498602639360) by (apply Z.div_le_upper_bound; lia).
  revert DM RB Hq1 Hq2.
  generalize (C / Zpos m) (C mod Zpos m). intros q r DM RB Hq1 Hq2.
  assert (Ce : e = -55 \/ e = -54 \/ e = -53 \/ e = -52) by lia.
  destruct (Z.lt_ge_cases q (2 ^ 53)) as [Hk|Hk].
  - rewrite (binary_round_aux_normal _ _ _ _ 0) by (first [lia | cbn; lia]).
    pose proof (rounded_nearest q r (Zpos m) 0 ltac:(lia) ltac:(lia) RB ltac:(lia)) as NR.
    pose proof (rounded_bounds q (new_location (Zpos m) r) 0 ltac:(lia)) as BR.
    change (2 ^ Z.of_nat 0) with 1 in *. rewrite Z.div_1_r in BR.
    revert NR BR. generalize (rounded q (new_location (Zpos m) r) 0). intros R NR BR.
    assert (P1 : 2 ^ 52 * Zpos m <= q * Zpos m) by nia.
    assert (P2 : (q + 1) * Zpos m <= 2 ^ 53 * Zpos m) by nia.
    destruct (Z.ltb_spec R (2 ^ 53));
      (eexists _, _, R, (-52 - e); split; [reflexivity|]);
      unfold normal; rewrite ?Z2Pos.id by lia;
      destruct Ce as [->|[->|[->| ->]]];
      repeat match goal with
      | |- context [2 ^ ?x] => progress zeval (2 ^ x)
      end; lia.
  - rewrite (binary_round_aux_normal _ _ _ _ 1) by (first [lia | cbn; lia]).
    pose proof (rounded_nearest q r (Zpos m) 1 ltac:(lia) ltac:(lia) RB ltac:(lia)) as NR.
    pose proof (rounded_bounds q (new_location (Zpos m) r) 1 ltac:(lia)) as BR.
    change (2 ^ Z.of_nat 1) with 2 in *.
    revert NR BR. generalize (rounded q (new_location (Zpos m) r) 1). intros R NR BR.
    assert (P1 : 2 ^ 53 * Zpos m <= q * Zpos m) by nia.
    assert (P2 : (q + 1) * Zpos m <= 2 ^ 54 * Zpos m) by nia.
    Z.div_mod_to_equations.
    destruct (Z.ltb_spec R (2 ^ 53));
      (eexists _, _, R, (-52 - e + 1); split; [reflexivity|]);
      unfold normal; rewrite ?Z2Pos.id by lia;
      destruct Ce as [->|[->|[->| ->]]];
      repeat match goal with
      | |- context [2 ^ ?x] => progress zeval (2 ^ x)
      end; lia.
Qed.

Lemma grid_monotone N K1 K2 R1 g1 R2 g2 :
  0 < K1 < K2 ->
  0 <= g1 <= 4 -> 0 <= g2 <= 4 ->
  2 ^ 52 <= R1 <= 2 ^ 53 -> 2 ^ 52 <= R2 <= 2 ^ 53 ->
  - (2 ^ g1 * K1) <= 2 * (R1 * 2 ^ g1 * K1 - N) <= 2 ^ g1 * K1 ->
  - (2 ^ g2 * K2) <= 2 * (R2 * 2 ^ g2 * K2 - N) <= 2 ^ g2 * K2 ->
  2 ^ (52 + g1) * K1 <= N < 2 ^ (53 + g1) * K1 ->
  2 ^ (52 + g2) * K2 <= N < 2 ^ (53 + g2) * K2 ->
  R2 * 2 ^ g2 <= R1 * 2 ^ g1.
Proof.
  intros HK G1 G2 HR1 HR2 N1 N2 B1 B2.
  assert (C1 : g1 = 0 \/ g1 = 1 \/ g1 = 2 \/ g1 = 3 \/ g1 = 4) by lia.
  assert (C2 : g2 = 0 \/ g2 = 1 \/ g2 = 2 \/ g2 = 3 \/ g2 = 4) by lia.
  destruct C1 as [->|[->|[->|[->| ->]]]]; destruct C2 as [->|[->|[->|[->| ->]]]];
    repeat match goal with
    | H : context [2 ^ ?x] |- _ => progress zeval (2 ^ x)
    end;
    repeat match goal with
    | |- context [2 ^ ?x] => progress zeval (2 ^ x)
    end;
    first [lia | nia].
Qed.

Lemma key_pos d : in_band d = true -> 0 < key d.
Proof.
  intros H. destruct (in_band_shape d H) as (m & e & Ed & Hn & He & _).
  unfold key. rewrite Ed.
  assert (0 < 2 ^ (e + 55)) by (apply Z.pow_pos_nonneg; lia). nia.
Qed.

Lemma SFleb_units m1 e1 m2 e2 :
  normal m1 -> normal m2 -> -48 <= e1 <= -44 -> -48 <= e2 <= -44 ->
  Zpos m1 * 2 ^ (e1 + 48) <= Zpos m2 * 2 ^ (e2 + 48) ->
  SFleb (S754_finite false m1 e1) (S754_finite false m2 e2) = true.
Proof.
  unfold normal. intros N1 N2 E1 E2 U.
  rewrite SFleb_finite, orb_true_iff, andb_true_iff, Z.ltb_lt, Z.eqb_eq, Z.leb_le.
  assert (C1 : e1 = -48 \/ e1 = -47 \/ e1 = -46 \/ e1 = -45 \/ e1 = -44) by lia.
  assert (C2 : e2 = -48 \/ e2 = -47 \/ e2 = -46 \/ e2 = -45 \/ e2 = -44) by lia.
  destruct C1 as [->|[->|[->|[->| ->]]]]; destruct C2 as [->|[->|[->|[->| ->]]]];
    repeat match goal with
    | H : context [2 ^ ?x] |- _ => progress zeval (2 ^ x)
    end; lia.
Qed.

(** A longer interval never gives a higher tempo. *)
Lemma div60_antitone a b :
  in_band a = true -> in_band b = true -> (a <=? b)%float = true ->
  (60 / b <=? 60 / a)%float = true.
Proof.
  intros Ha Hb L. rewrite key_leb in L by assumption. apply Z.leb_le in L.
  destruct (div60_value a Ha) as (m1 & e1 & R1 & g1 & E1 & Nm1 & He1 & V1 & G1 & HR1 & N1 & B1).
  destruct (Z.eq_dec (key a) (key b)) as [Eq|Ne].
  - apply key_inj in Eq; trivial. subst b.
    rewrite leb_spec, E1. apply SFleb_units; trivial. lia.
  - destruct (div60_value b Hb) as (m2 & e2 & R2 & g2 & E2 & Nm2 & He2 & V2 & G2 & HR2 & N2 & B2).
    rewrite leb_spec, E1, E2. apply SFleb_units; trivial.
    rewrite V1, V2.
    pose proof (key_pos a Ha).
    apply (grid_monotone bpm_numerator (key a) (key b)); trivial. lia.
Qed.

End Binary64Order.

(** * Further properties of the code *)

Lemma sorted_nth_le_Z (l : list Z) :
  StronglySorted Z.le l ->
  forall i j, (i <= j < length l)%nat -> (nth i l 0 <= nth j l 0)%Z.
Proof.
  induction 1 as [|x t St IH Hx]; intros i j Hij; cbn [length] in Hij; [lia|].
  destruct i as [|i], j as [|j]; cbn [nth]; try lia.
  - rewrite Forall_forall in Hx. apply Hx, nth_In. lia.
  - apply IH. lia.
Qed.

Lemma key_nan : key nan = 0%Z.
Proof. reflexivity. Qed.

Lemma sort_nth_le v i j :
  Forall (fun d => in_band d = true) v ->
  (i <= j < length v)%nat ->
  le_float (nth i (Numpy.sort v) nan) (nth j (Numpy.sort v) nan).
Proof.
  intros B Hij. unfold le_float.
  pose proof (sort_in_band v B) as Bs. rewrite Forall_forall in Bs.
  rewrite Binary64.key_leb
    by (apply Bs, nth_In; rewrite sort_length; lia).
  apply Z.leb_le. rewrite <- !(map_nth key), key_nan.
  apply sorted_nth_le_Z.
  - apply Sorted_StronglySorted; [exact Z.le_trans|].
    apply sorted_keys; [now apply sort_in_band|now apply sort_sorted].
  - now rewrite length_map, sort_length.
Qed.

Lemma filter_length_perm (p : float -> bool) l1 l2 :
  Permutation l1 l2 -> length (filter p l1) = length (filter p l2).
Proof.
  induction 1 as [|x l l' _ IH|x y l|l l' l'' _ IH1 _ IH2]; cbn [filter]; trivial.
  - destruct (p x); cbn [length]; lia.
  - destruct (p x), (p y); reflexivity.
  - lia.
Qed.

Lemma filter_prefix (p : float -> bool) : forall s c,
  (c <= length s)%nat ->
  (forall i, (i < c)%nat -> p (nth i s nan) = true) ->
  (c <= length (filter p s))%nat.
Proof.
  induction s as [|x t IH]; intros c Hc H; cbn [length] in *; [lia|].
  destruct c as [|c]; [lia|]. cbn [filter].
  pose proof (H 0%nat ltac:(lia)) as H0. cbn [nth] in H0. rewrite H0. cbn [length].
  apply le_n_S, IH; [lia|]. intros i Hi. apply (H (S i)). lia.
Qed.

Lemma filter_suffix (p : float -> bool) : forall s c,
  (forall i, (c <= i < length s)%nat -> p (nth i s nan) = true) ->
  (length s - c <= length (filter p s))%nat.
Proof.
  induction s as [|x t IH]; intros c H; cbn [length] in *; [lia|].
  cbn [filter]. destruct c as [|c].
  - pose proof (H 0%nat ltac:(lia)) as H0. cbn [nth] in H0. rewrite H0. cbn [length].
    specialize (IH 0%nat). rewrite Nat.sub_0_r in IH.
    apply le_n_S, IH. intros i Hi. apply (H (S i)). lia.
  - assert (L : (length t - c <= length (filter p t))%nat)
      by (apply IH; intros i Hi; apply (H (S i)); lia).
    destruct (p x); cbn [length]; lia.
Qed.

Lemma half_even n : Nat.even n = true -> n = (2 * (n / 2))%nat.
Proof.
  intros E. apply Nat.even_spec in E as [k ->].
  now rewrite (Nat.mul_comm 2 k), Nat.div_mul, Nat.mul_comm by lia.
Qed.

Lemma half_odd n : Nat.even n = false -> n = (2 * (n / 2) + 1)%nat.
Proof.
  intros E. assert (O : Nat.odd n = true) by (now rewrite <- Nat.negb_even, E).
  apply Nat.odd_spec in O as [k ->].
  rewrite (Nat.add_comm (2 * k) 1), (Nat.mul_comm 2 k), Nat.div_add by lia.
  cbn. lia.
Qed.

Lemma le_float_refl x : in_band x = true -> le_float x x.
Proof.
  intros H. unfold le_float. rewrite Binary64.key_leb by assumption. apply Z.leb_refl.
Qed.

Lemma le_float_trans x y z :
  in_band x = true -> in_band y = true -> in_band z = true ->
  le_float x y -> le_float y z -> le_float x z.
Proof.
  unfold le_float. intros Hx Hy Hz.
  rewrite !Binary64.key_leb by assumption. rewrite !Z.leb_le. lia.
Qed.

(** The median lies between the two middle values of the sorted copy. *)
Lemma median_between_middle v :
  Forall (fun d => in_band d = true) v -> v <> [] ->
  le_float (nth ((length v - 1) / 2) (Numpy.sort v) nan) (Numpy.median v) /\
  le_float (Numpy.median v) (nth (length v / 2) (Numpy.sort v) nan).
Proof.
  intros B N.
  pose proof (v_length v B N) as L. pose proof (half_lt _ L) as Hh.
  rewrite (median_spec_sort v B N). unfold spec_median. rewrite sort_length.
  destruct (Nat.even (length v)) eqn:E.
  - pose proof (even_half_pos _ L E) as H1. pose proof (half_even _ E) as H2.
    replace ((length v - 1) / 2)%nat with (length v / 2 - 1)%nat.
    2:{ rewrite H2 at 2.
        replace (2 * (length v / 2) - 1)%nat with (1 + (length v / 2 - 1) * 2)%nat by lia.
        rewrite Nat.div_add by lia. cbn. lia. }
    apply Binary64Order.mean_two_between; try (apply nth_sort_in_band; trivial; lia).
    apply sort_nth_le; trivial. lia.
  - pose proof (half_odd _ E) as H2.
    replace ((length v - 1) / 2)%nat with (length v / 2)%nat.
    2:{ rewrite H2 at 2.
        replace (2 * (length v / 2) + 1 - 1)%nat with ((length v / 2) * 2)%nat by lia.
        now rewrite Nat.div_mul by lia. }
    split; apply le_float_refl, nth_sort_in_band; trivial.
Qed.



Lemma median_perm v1 v2 :
  Forall (fun d => in_band d = true) v1 -> Permutation v1 v2 ->
  Numpy.median v1 = Numpy.median v2.
Proof.
  intros B1 P.
  assert (B2 : Forall (fun d => in_band d = true) v2)
    by (eapply Permutation_Forall; eassumption).
  destruct v1 as [|x t].
  - apply Permutation_nil in P. now subst.
  - assert (N1 : x :: t <> []) by discriminate.
    assert (N2 : v2 <> []).
    { intros ->. apply Permutation_sym, Permutation_nil in P. discriminate. }
    rewrite (median_spec_sort _ B1 N1), (median_spec_sort _ B2 N2).
    f_equal. apply sorted_unique; trivial.
    + now apply sort_sorted.
    + eapply perm_trans; [apply sort_perm|exact P].
Qed.

Lemma valid_intervals_short beats :
  (length beats < 2)%nat -> valid_intervals beats = [].
Proof.
  intros H. destruct beats as [|x [|y t]]; cbn [length] in H; trivial. lia.
Qed.

Lemma calculate_bpm_perm b1 b2 :
  Permutation (valid_intervals b1) (valid_intervals b2) ->
  calculate_bpm_from_beats b1 = calculate_bpm_from_beats b2.
Proof.
  intros P.
  assert (Z1 : forall b, valid_intervals b = [] -> calculate_bpm_from_beats b = 0.0).
  { intros b E. destruct (calculate_bpm_cases b) as [[_ R]|(_ & N & _)]; congruence. }
  destruct (calculate_bpm_cases b1) as [[H R]|(_ & N1 & E1)].
  - assert (E : valid_intervals b1 = [])
      by (destruct H; [now apply valid_intervals_short|trivial]).
    rewrite E in P. apply Permutation_nil in P. now rewrite R, Z1.
  - destruct (calculate_bpm_cases b2) as [[H R]|(_ & N2 & E2)].
    + assert (E : valid_intervals b2 = [])
        by (destruct H; [now apply valid_intervals_short|trivial]).
      rewrite E in P. apply Permutation_sym, Permutation_nil in P. congruence.
    + rewrite E1, E2. f_equal. apply median_perm; trivial.
      apply valid_intervals_in_band.
Qed.

(** X1: two timestamps give one interval; the estimate is [60.0] over it
    when it passes the band filter and [0.0] otherwise. *)
Theorem bpm_two_beats a b :
  calculate_bpm_from_beats [a; b]
  = if in_band (b - a) then 60.0 / (b - a) else 0.0.
Proof.
  destruct (in_band (b - a)) eqn:E.
  - destruct (calculate_bpm_cases [a; b]) as [[[H|H] _]|(_ & _ & R)].
    + cbn in H. lia.
    + unfold valid_intervals in H. cbn [Numpy.diff Numpy.mask_index filter] in H.
      rewrite E in H. discriminate.
    + rewrite R. unfold valid_intervals. cbn [Numpy.diff Numpy.mask_index filter].
      rewrite E. f_equal.
      unfold Numpy.median. cbn [existsb]. rewrite (Binary64.in_band_not_nan _ E).
      cbn. now apply Binary64.div_one.
  - destruct (calculate_bpm_cases [a; b]) as [[_ R]|(_ & N & _)]; trivial.
    exfalso. apply N. unfold valid_intervals. cbn [Numpy.diff Numpy.mask_index filter].
    now rewrite E.
Qed.

Lemma nth_repeat_lt (d : float) n i :
  (i < n)%nat -> nth i (repeat d n) nan = d.
Proof.
  revert i. induction n as [|n IH]; intros i H; [lia|].
  destruct i as [|i]; cbn [repeat nth]; trivial. apply IH. lia.
Qed.

Lemma repeat_sorted d n : in_band d = true -> Sorted le_float (repeat d n).
Proof.
  intros H. induction n as [|n IH]; cbn [repeat]; constructor; trivial.
  destruct n; cbn [repeat]; constructor. now apply le_float_refl.
Qed.

Lemma filter_repeat d n : in_band d = true -> filter in_band (repeat d n) = repeat d n.
Proof.
  intros H. induction n as [|n IH]; cbn [repeat filter]; trivial.
  now rewrite H, IH.
Qed.

(** X2: a steady pulse: when all computed intervals are the same value [d]
    of the band, the estimate is exactly [60.0 / d], for an even number of
    intervals too ([d + d] and the halving are exact). *)
Theorem bpm_steady_tempo beats d :
  Numpy.diff beats <> [] ->
  Forall (eq d) (Numpy.diff beats) ->
  in_band d = true ->
  calculate_bpm_from_beats beats = 60.0 / d.
Proof.
  intros N F B.
  apply Forall_eq_repeat in F.
  set (n := length (Numpy.diff beats)) in *.
  assert (Hn : (0 < n)%nat).
  { subst n. destruct (Numpy.diff beats); [congruence|cbn; lia]. }
  assert (V : valid_intervals beats = repeat d n).
  { unfold valid_intervals, Numpy.mask_index. rewrite F. now apply filter_repeat. }
  assert (NV : valid_intervals beats <> []).
  { rewrite V. destruct n; [lia|discriminate]. }
  destruct (calculate_bpm_cases beats) as [[[H|H] _]|(_ & _ & R)].
  - apply valid_intervals_short in H. congruence.
  - congruence.
  - rewrite R. f_equal.
    rewrite (median_spec _ (valid_intervals_in_band beats) NV (repeat d n)).
    + unfold spec_median. rewrite repeat_length.
      pose proof (half_lt _ Hn).
      destruct (Nat.even n) eqn:E.
      * pose proof (even_half_pos _ Hn E).
        rewrite !nth_repeat_lt by lia. now apply Binary64Order.mean_two_same.
      * now apply nth_repeat_lt.
    + now apply repeat_sorted.
    + rewrite V. apply Permutation_refl.
Qed.

Lemma bpm_steady_tempo_witness :
  calculate_bpm_from_beats [1.0; 1.5; 2.0; 2.5; 3.0] = 60.0 / 0.5.
Proof.
  apply bpm_steady_tempo.
  - vm_compute. discriminate.
  - vm_compute. repeat constructor.
  - reflexivity.
Defined.

(** X3: the estimate depends only on which intervals are retained, not on
    their order nor on the intervals that were dropped. *)
Theorem bpm_depends_on_retained b1 b2 :
  Permutation (valid_intervals b1) (valid_intervals b2) ->
  calculate_bpm_from_beats b1 = calculate_bpm_from_beats b2.
Proof. apply calculate_bpm_perm. Qed.

Lemma bpm_depends_on_retained_witness :
  calculate_bpm_from_beats [0.0; 0.5; 1.25; 4.0]
  = calculate_bpm_from_beats [0.0; 0.75; 1.25; 9.0].
Proof.
  apply bpm_depends_on_retained. vm_compute. apply perm_swap.
Defined.

(** X7: a gap before the first beat (an interval the band filter drops)
    does not change the estimate. *)
Theorem bpm_gap_before_first t beats :
  in_band (hd 0 beats - t) = false ->
  calculate_bpm_from_beats (t :: beats) = calculate_bpm_from_beats beats.
Proof.
  intros H. apply calculate_bpm_perm.
  destruct beats as [|x r]; [apply Permutation_refl|].
  unfold valid_intervals, Numpy.mask_index.
  change (Numpy.diff (t :: x :: r)) with ((x - t) :: Numpy.diff (x :: r)).
  cbn [filter hd] in *. rewrite H. apply Permutation_refl.
Qed.

Lemma bpm_gap_before_first_witness :
  calculate_bpm_from_beats [0.0; 5.0; 5.5; 6.0]
  = calculate_bpm_from_beats [5.0; 5.5; 6.0].
Proof.
  apply bpm_gap_before_first. reflexivity.
Defined.

(** X8: a gap after the last beat does not change the estimate. *)
Theorem bpm_gap_after_last beats t :
  in_band (t - last beats 0) = false ->
  calculate_bpm_from_beats (beats ++ [t]) = calculate_bpm_from_beats beats.
Proof.
  intros H. apply calculate_bpm_perm.
  destruct beats as [|x r]; [apply Permutation_refl|].
  unfold valid_intervals, Numpy.mask_index.
  rewrite diff_snoc by discriminate.
  rewrite filter_app. cbn [filter]. rewrite H, app_nil_r. apply Permutation_refl.
Qed.

Lemma bpm_gap_after_last_witness :
  calculate_bpm_from_beats ([0.0; 0.5; 1.0] ++ [7.0])
  = calculate_bpm_from_beats [0.0; 0.5; 1.0].
Proof.
  apply bpm_gap_after_last. reflexivity.
Defined.

Lemma calculate_bpm_range beats :
  calculate_bpm_from_beats beats = 0.0 \/
  (30.0 <? calculate_bpm_from_beats beats) = true /\
  (calculate_bpm_from_beats beats <? 300.0) = true.
Proof.
  destruct (calculate_bpm_cases beats) as [[_ R]|(_ & N & E)]; [now left|right].
  rewrite E. apply Binary64.bpm_in_range.
  apply median_in_band; trivial. apply valid_intervals_in_band.
Qed.

(** X9: [main] prints at most one JSON object.  When the command line
    parses and the processors return or raise an exception of class
    [Exception], it prints exactly one, on one of the two streams; the
    object has the keys [beats], [bpm] and [confidence], and its [bpm] is
    0.0 or strictly between 30 and 300 (never [nan] or an infinity); exit
    code 0 goes with confidence 0.85 and the beats of the tracker, exit
    code 1 with the [error] key, no beats, bpm 0.0 and confidence 0.0.  A
    rejected command line (exit code 2), a request for help (exit code 0)
    and an exception outside class [Exception] print only text. *)
Theorem main_prints_one_object
    parse_args RNNBeatProcessor DBNBeatTrackingProcessor argv :
  let run := main parse_args RNNBeatProcessor DBNBeatTrackingProcessor argv in
  (length (json_values (stdout run ++ stderr run)) <= 1)%nat /\
  match parse_args argv with
  | Namespace a =>
      match detect_beats RNNBeatProcessor DBNBeatTrackingProcessor a with
      | Escapes status trace =>
          stdout run = [] /\ stderr run = map Text trace /\
          json_values (stdout run ++ stderr run) = [] /\
          exit_code run = status
      | outcome =>
          exists j beats bpm confidence,
            stdout run ++ stderr run = [Json j] /\
            json_get "beats" j = Some (JArr (map JNum beats)) /\
            json_get "bpm" j = Some (JNum bpm) /\
            json_get "confidence" j = Some (JNum confidence) /\
            (bpm = 0.0 \/ (30.0 <? bpm) = true /\ (bpm <? 300.0) = true) /\
            (exit_code run = 0%Z /\ stderr run = [] /\ confidence = 0.85 /\
               bpm = calculate_bpm_from_beats beats /\
               outcome = Return beats
             \/
             exit_code run = 1%Z /\ stdout run = [] /\
               confidence = 0.0 /\ beats = [] /\ bpm = 0.0 /\
               exists e, json_get "error" j = Some (JStr e) /\
                         outcome = Raises e)
      end
  | UsageError text =>
      stdout run = [] /\ stderr run = [Text text] /\ exit_code run = 2%Z
  | Help text =>
      stdout run = [Text text] /\ stderr run = [] /\ exit_code run = 0%Z
  end.
Proof.
  cbv zeta. unfold main, try_block, detect_beats.
  destruct (parse_args argv) as [a|text|text];
    [|repeat split; cbn; lia|repeat split; cbn; lia].
  destruct (RNNBeatProcessor (wav_path a)) as [act|e|status trace]; cbn [bind].
  2:{ split; [cbn; lia|]. eexists _, [], 0.0, 0.0.
      do 4 (split; [reflexivity|]). split; [now left|].
      right. do 5 (split; [reflexivity|]). exists e. split; reflexivity. }
  2:{ cbn [stdout stderr exit_code app]. rewrite json_values_text.
      repeat split; cbn; lia. }
  destruct (DBNBeatTrackingProcessor 100%Z (min_bpm a) (max_bpm a) act)
    as [beats|e|status trace]; cbn [bind].
  2:{ split; [cbn; lia|]. eexists _, [], 0.0, 0.0.
      do 4 (split; [reflexivity|]). split; [now left|].
      right. do 5 (split; [reflexivity|]). exists e. split; reflexivity. }
  2:{ cbn [stdout stderr exit_code app]. rewrite json_values_text.
      repeat split; cbn; lia. }
  rewrite calculate_bpm_checked_returns. cbn [bind].
  split; [cbn; lia|].
  eexists _, beats, (calculate_bpm_from_beats beats), 0.85.
  do 4 (split; [reflexivity|]). split; [apply calculate_bpm_range|].
  left. repeat split.
Qed.

Lemma diffs_not_in_band beats :
  Sorted (fun x y => (y <=? x) = true) beats ->
  valid_intervals beats = [].
Proof.
  intros S. unfold valid_intervals, Numpy.mask_index.
  induction S as [|x t St IH Hx]; trivial.
  destruct Hx as [|y t' Hyx]; trivial.
  change (Numpy.diff (x :: y :: t')) with ((y - x) :: Numpy.diff (y :: t')).
  cbn [filter]. now rewrite (Binary64Order.sub_not_in_band x y Hyx).
Qed.

(** X6: timestamps that never increase (a reversed sequence, repeated
    timestamps) give differences that are never positive, so nothing is
    retained and the estimate is [0.0]. *)
Theorem bpm_non_increasing beats :
  Sorted (fun x y => (y <=? x) = true) beats ->
  calculate_bpm_from_beats beats = 0.0.
Proof.
  intros S. pose proof (diffs_not_in_band beats S) as E.
  destruct (calculate_bpm_cases beats) as [[_ R]|(_ & N & _)]; congruence.
Qed.

Lemma bpm_non_increasing_witness :
  calculate_bpm_from_beats [3.0; 2.5; 2.5; 1.0] = 0.0.
Proof.
  apply bpm_non_increasing. repeat constructor.
Defined.


